(** * Motion-data processing engine (skeleton utilities)

    A shallow embedding of the numeric transforms of the skeleton utility
    module: [calculateDistance], [applyLengthConstraints],
    [blendMarkerAndMarkerlessData], [fillMissingMarkers], [synchronizeData]
    and [applyTemporalSmoothing].

    The TypeScript code computes on [number].  The transforms are embedded
    once, generically over an interface [Number] of the arithmetic they use,
    and the interface is instantiated twice:
    - at [float] (IEEE 754 binary64, the values a JavaScript engine really
      computes with), where every definition evaluates;
    - at [R] (the real-valued coordinates of the data model), where the
      algebraic laws of the transforms are proved.

    Marker tables ([Record<string, ...>]) are finite maps from marker
    identifiers to samples; a missing key is an absent marker. *)

From Stdlib Require Numbers.Cyclic.Int63.Uint63.
From Stdlib Require Import Floats.PrimFloat.
From Stdlib Require Import ZArith Reals Lra Lia List Bool String.
From stdpp Require Import gmap strings list fin_maps pretty.

(** ** The arithmetic interface *)

Class Number (F : Type) := {
  num_zero : F;
  num_one : F;
  num_half : F;                      (* the literal 0.5 *)
  num_add : F → F → F;
  num_sub : F → F → F;
  num_mul : F → F → F;
  num_div : F → F → F;
  num_sqrt : F → F;                  (* Math.sqrt *)
  num_ltb : F → F → bool;            (* a < b *)
  num_max : F → F → F;               (* Math.max *)
  num_of_Z : Z → F                   (* an integer counter used as a number *)
}.

(** [-Infinity], which only the synchronizer uses. *)
Class NumberInf (F : Type) := {
  num_neg_infinity : F
}.

Declare Scope num_scope.
Delimit Scope num_scope with num.
Infix "+" := num_add : num_scope.
Infix "-" := num_sub : num_scope.
Infix "*" := num_mul : num_scope.
Infix "/" := num_div : num_scope.

(** [a > b] *)
Definition num_gtb {F} `{Number F} (a b : F) : bool := num_ltb b a.

(** ** Data model (types.ts) *)

Record Point2D (F : Type) := mkPoint { px : F; py : F }.
Arguments mkPoint {F} _ _.
Arguments px {F} _.
Arguments py {F} _.

(** [Point2D & { confidence: number; isVisible: boolean }] *)
Record MarkerSample (F : Type) := mkSample {
  marker_x : F;
  marker_y : F;
  confidence : F;
  isVisible : bool
}.
Arguments mkSample {F} _ _ _ _.
Arguments marker_x {F} _.
Arguments marker_y {F} _.
Arguments confidence {F} _.
Arguments isVisible {F} _.

Record Frame (F : Type) := mkFrame {
  frameNumber : Z;
  timestamp : F;
  markers : gmap string (MarkerSample F)
}.
Arguments mkFrame {F} _ _ _.
Arguments frameNumber {F} _.
Arguments timestamp {F} _.
Arguments markers {F} _.

Record Joint (F : Type) := mkJoint {
  startMarkerId : string;
  endMarkerId : string;
  joint_length : F;
  joint_name : string
}.
Arguments mkJoint {F} _ _ _ _.
Arguments startMarkerId {F} _.
Arguments endMarkerId {F} _.
Arguments joint_length {F} _.
Arguments joint_name {F} _.

(** A node of the solver's working graph. *)
Record Node (F : Type) := mkNode {
  neighbors : list string;
  originalPosition : Point2D F;
  newPosition : Point2D F;
  weight : F
}.
Arguments mkNode {F} _ _ _ _.
Arguments neighbors {F} _.
Arguments originalPosition {F} _.
Arguments newPosition {F} _.
Arguments weight {F} _.

(** A marker sample used where a [Point2D] is expected. *)
Definition position {F} (m : MarkerSample F) : Point2D F :=
  mkPoint (marker_x m) (marker_y m).

(** [{ ...m, x: p.x, y: p.y }] *)
Definition with_position {F} (m : MarkerSample F) (p : Point2D F) : MarkerSample F :=
  mkSample (px p) (py p) (confidence m) (isVisible m).

(** [{ ...frame, markers: ms }] *)
Definition with_markers {F} (frame : Frame F) (ms : gmap string (MarkerSample F)) : Frame F :=
  mkFrame (frameNumber frame) (timestamp frame) ms.

Section Engine.
Context {F : Type} `{Number F}.
Local Open Scope num_scope.

(** *** Geometry *)

(** [Math.sqrt(Math.pow(p2.x - p1.x, 2) + Math.pow(p2.y - p1.y, 2))];
    the square [Math.pow(a, 2)] is the product [a * a]. *)
Definition calculateDistance (p1 p2 : Point2D F) : F :=
  num_sqrt ((px p2 - px p1) * (px p2 - px p1) + (py p2 - py p1) * (py p2 - py p1)).

(** *** Length-constraint solver *)

(** First loop: one node per visible marker. *)
Definition init_graph (frame : Frame F) : gmap string (Node F) :=
  map_fold
    (λ markerId marker graph,
       if isVisible marker
       then <[markerId := mkNode [] (position marker) (position marker) (confidence marker)]> graph
       else graph)
    ∅ (markers frame).

(** [graph[id].neighbors.push(other)] under the guard [if (graph[id])]. *)
Definition push_neighbor (id other : string) (graph : gmap string (Node F)) : gmap string (Node F) :=
  match graph !! id with
  | Some node =>
      <[id := mkNode (neighbors node ++ [other]) (originalPosition node) (newPosition node) (weight node)]> graph
  | None => graph
  end.

(** Second loop: record the edges of the joints whose endpoints are both visible. *)
Definition add_connection (frame : Frame F) (graph : gmap string (Node F)) (joint : Joint F)
  : gmap string (Node F) :=
  match markers frame !! startMarkerId joint, markers frame !! endMarkerId joint with
  | Some startMarker, Some endMarker =>
      if isVisible startMarker && isVisible endMarker && num_gtb (joint_length joint) num_zero
      then push_neighbor (endMarkerId joint) (startMarkerId joint)
             (push_neighbor (startMarkerId joint) (endMarkerId joint) graph)
      else graph
  | _, _ => graph
  end.

(** [node.newPosition = p] on the node stored under [id]. *)
Definition set_newPosition (id : string) (p : Point2D F) (graph : gmap string (Node F))
  : gmap string (Node F) :=
  match graph !! id with
  | Some node => <[id := mkNode (neighbors node) (originalPosition node) p (weight node)]> graph
  | None => graph
  end.

(** The body of the inner [joints.forEach] of the relaxation loop. *)
Definition relax_joint (graph : gmap string (Node F)) (joint : Joint F) : gmap string (Node F) :=
  match graph !! startMarkerId joint, graph !! endMarkerId joint with
  | Some startNode, Some endNode =>
      if num_gtb (joint_length joint) num_zero then
        let startPos := newPosition startNode in
        let endPos := newPosition endNode in
        let currentDistance := calculateDistance startPos endPos in
        if num_gtb currentDistance num_zero then
          let correction := (joint_length joint - currentDistance) / currentDistance in
          let dx := px endPos - px startPos in
          let dy := py endPos - py startPos in
          let totalWeight := weight startNode + weight endNode in
          let startWeight := weight endNode / totalWeight in
          let endWeight := weight startNode / totalWeight in
          set_newPosition (endMarkerId joint)
            (mkPoint (px endPos + dx * correction * endWeight * num_half)
                     (py endPos + dy * correction * endWeight * num_half))
            (set_newPosition (startMarkerId joint)
               (mkPoint (px startPos - dx * correction * startWeight * num_half)
                        (py startPos - dy * correction * startWeight * num_half))
               graph)
        else graph
      else graph
  | _, _ => graph
  end.

(** One pass over the joint list. *)
Definition relax_pass (joints : list (Joint F)) (graph : gmap string (Node F)) : gmap string (Node F) :=
  fold_left relax_joint joints graph.

(** Last loop: copy the relaxed positions into the new frame. *)
Definition write_back (graph : gmap string (Node F)) (ms : gmap string (MarkerSample F))
  : gmap string (MarkerSample F) :=
  map_fold
    (λ markerId node acc,
       match acc !! markerId with
       | Some m => <[markerId := with_position m (newPosition node)]> acc
       | None => acc
       end)
    ms graph.

(** [for (let iter = 0; iter < iterations; iter++)] runs [Z.to_nat iterations] passes. *)
Definition applyLengthConstraints (frame : Frame F) (joints : list (Joint F)) (iterations : Z)
  : Frame F :=
  let graph := fold_left (add_connection frame) joints (init_graph frame) in
  let graph := Nat.iter (Z.to_nat iterations) (relax_pass joints) graph in
  with_markers frame (write_back graph (markers frame)).

(** *** Source fusion *)

(** The body of [Object.entries(markerFrame.markers).forEach] for one entry. *)
Definition blend_entry (markerlessFrame : Frame F) (blendRatio : F)
    (markerId : string) (marker : MarkerSample F) (acc : gmap string (MarkerSample F))
  : gmap string (MarkerSample F) :=
  match markers markerlessFrame !! markerId with
  | Some markerlessMarker =>
      if isVisible marker && isVisible markerlessMarker then
        let markerWeight := confidence marker * (num_one - blendRatio) in
        let markerlessWeight := confidence markerlessMarker * blendRatio in
        let totalWeight := markerWeight + markerlessWeight in
        if num_gtb totalWeight num_zero then
          <[markerId :=
              mkSample
                ((marker_x marker * markerWeight + marker_x markerlessMarker * markerlessWeight)
                   / totalWeight)
                ((marker_y marker * markerWeight + marker_y markerlessMarker * markerlessWeight)
                   / totalWeight)
                (num_max (confidence marker) (confidence markerlessMarker))
                (isVisible marker)]> acc
        else acc
      else acc
  | None => acc
  end.

Definition blendMarkerAndMarkerlessData (markerFrame markerlessFrame : Frame F) (blendRatio : F)
  : Frame F :=
  with_markers markerFrame
    (map_fold (blend_entry markerlessFrame blendRatio) (markers markerFrame) (markers markerFrame)).

(** *** Missing-marker estimator *)

(** [joints.filter(j => (j.startMarkerId === id || j.endMarkerId === id) && j.length > 0)] *)
Definition connectedJoints (joints : list (Joint F)) (id : string) : list (Joint F) :=
  List.filter
    (λ j, (String.eqb (startMarkerId j) id || String.eqb (endMarkerId j) id)
          && num_gtb (joint_length j) num_zero)
    joints.

(** The estimate of the far end of [joint], seen from its visible end
    [knownId] whose sample is [known]: [estimatedPosition], or [None] for
    [null]. *)
Definition estimatePosition (frame : Frame F) (joints : list (Joint F)) (joint : Joint F)
    (knownId : string) (known : MarkerSample F) : option (Point2D F) :=
  match connectedJoints joints knownId with
  | connectedJoint :: _ =>
      let connectedMarkerId :=
        if String.eqb (startMarkerId connectedJoint) knownId
        then endMarkerId connectedJoint
        else startMarkerId connectedJoint in
      match markers frame !! connectedMarkerId with
      | Some connectedMarker =>
          if isVisible connectedMarker then
            let vx := marker_x connectedMarker - marker_x known in
            let vy := marker_y connectedMarker - marker_y known in
            let magnitude := num_sqrt (vx * vx + vy * vy) in
            if num_gtb magnitude num_zero then
              let normalizedVector := mkPoint (vx / magnitude) (vy / magnitude) in
              Some (mkPoint (marker_x known + px normalizedVector * joint_length joint)
                            (marker_y known + py normalizedVector * joint_length joint))
            else None
          else None
      | None => None
      end
  | [] => None
  end.

(** The state of the loop: [newFrame.markers] and [processedMarkers]. *)
Definition fill_state : Type := gmap string (MarkerSample F) * gset string.

(** [newFrame.markers[id] = {x, y, confidence: 0.5, isVisible: true}; processedMarkers.add(id)] *)
Definition add_estimate (id : string) (estimatedPosition : option (Point2D F)) (st : fill_state)
  : fill_state :=
  match estimatedPosition with
  | Some p => (<[id := mkSample (px p) (py p) num_half true]> (fst st), {[id]} ∪ snd st)
  | None => st
  end.

(** The body of [joints.forEach]: the marker tests read the input frame. *)
Definition fill_joint (frame : Frame F) (joints : list (Joint F)) (st : fill_state) (joint : Joint F)
  : fill_state :=
  match markers frame !! startMarkerId joint, markers frame !! endMarkerId joint with
  | Some startMarker, None =>
      if isVisible startMarker && num_gtb (joint_length joint) num_zero
      then add_estimate (endMarkerId joint)
             (estimatePosition frame joints joint (startMarkerId joint) startMarker) st
      else st
  | None, Some endMarker =>
      if isVisible endMarker && num_gtb (joint_length joint) num_zero
      then add_estimate (startMarkerId joint)
             (estimatePosition frame joints joint (endMarkerId joint) endMarker) st
      else st
  | _, _ => st
  end.

Definition fillMissingMarkers (frame : Frame F) (joints : list (Joint F)) : Frame F :=
  with_markers frame (fst (fold_left (fill_joint frame joints) joints (markers frame, ∅))).

(** *** Temporal smoothing *)

(** The running sums of the window loop: [sumX], [sumY], [sumConfidence], [count]. *)
Record WindowSums := mkSums { sumX : F; sumY : F; sumConfidence : F; count : Z }.

Definition add_sample (frames : list (Frame F)) (markerId : string) (acc : WindowSums) (j : nat)
  : WindowSums :=
  match frames !! j ≫= (λ frame, markers frame !! markerId) with
  | Some marker =>
      if isVisible marker
      then mkSums (sumX acc + marker_x marker * confidence marker)
                  (sumY acc + marker_y marker * confidence marker)
                  (sumConfidence acc + confidence marker)
                  (count acc + 1)
      else acc
  | None => acc
  end.

(** [for (let j = windowStart; j <= windowEnd; j++)] for frame [i]. *)
Definition window_indices (len : nat) (windowSize : Z) (i : nat) : list nat :=
  let windowStart := Z.max 0 (Z.of_nat i - windowSize / 2) in
  let windowEnd := Z.min (Z.of_nat len - 1) (Z.of_nat i + windowSize / 2) in
  seq (Z.to_nat windowStart) (Z.to_nat (windowEnd + 1 - windowStart)).

Definition windowSums (frames : list (Frame F)) (windowSize : Z) (i : nat) (markerId : string)
  : WindowSums :=
  fold_left (add_sample frames markerId)
    (window_indices (List.length frames) windowSize i)
    (mkSums num_zero num_zero num_zero 0).

(** The body of [Object.keys(frames[i].markers).forEach]. *)
Definition smooth_entry (frames : list (Frame F)) (windowSize : Z) (i : nat)
    (markerId : string) (marker : MarkerSample F) (acc : gmap string (MarkerSample F))
  : gmap string (MarkerSample F) :=
  let sums := windowSums frames windowSize i markerId in
  if (0 <? count sums)%Z && num_gtb (sumConfidence sums) num_zero
  then <[markerId := mkSample (sumX sums / sumConfidence sums) (sumY sums / sumConfidence sums)
                       (confidence marker) (isVisible marker)]> acc
  else acc.

Definition smooth_frame (frames : list (Frame F)) (windowSize : Z) (i : nat) (frame : Frame F)
  : Frame F :=
  with_markers frame
    (map_fold (smooth_entry frames windowSize i) (markers frame) (markers frame)).

(** [windowSize] is an integer by contract; the early return compares it with 1. *)
Definition applyTemporalSmoothing (frames : list (Frame F)) (windowSize : Z) : list (Frame F) :=
  if (Z.of_nat (List.length frames) <=? 1)%Z || (windowSize <=? 1)%Z
  then frames
  else imap (smooth_frame frames windowSize) frames.

End Engine.

(** *** Temporal synchronizer *)

Section Synchronizer.
Context {F : Type} `{Number F} `{NumberInf F}.
Local Open Scope num_scope.

(** The body of [Object.keys(frames[i].markers).forEach] inside
    [calculateMovement]; the state is [(totalMovement, numMarkers)] and [prev]
    is [frames[i-1]].  The terms are added in the key order of the table. *)
Definition movement_entry (prev : Frame F) (markerId : string) (currentMarker : MarkerSample F)
    (acc : F * Z) : F * Z :=
  match markers prev !! markerId with
  | Some prevMarker =>
      if isVisible currentMarker && isVisible prevMarker
      then (fst acc + calculateDistance (position currentMarker) (position prevMarker),
            (snd acc + 1)%Z)
      else acc
  | None => acc
  end.

(** [numMarkers > 0 ? totalMovement / numMarkers : 0] for one adjacent pair. *)
Definition frame_movement (prev current : Frame F) : F :=
  let sums := map_fold (movement_entry prev) (num_zero, 0%Z) (markers current) in
  if (0 <? snd sums)%Z then fst sums / num_of_Z (snd sums) else num_zero.

(** [for (let i = 1; i < frames.length; i++)]: one entry per adjacent pair. *)
Fixpoint calculateMovement (frames : list (Frame F)) : list F :=
  match frames with
  | prev :: rest =>
      match rest with
      | current :: _ => frame_movement prev current :: calculateMovement rest
      | [] => []
      end
  | [] => []
  end.

(** The body of the inner [for (let i = 0; i < syncWindowSize; i++)]; the
    state is [(correlation, count)]. *)
Definition correlation_step (markerMovements markerlessMovements : list F) (offset : Z)
    (acc : F * Z) (i : nat) : F * Z :=
  let markerIdx := Z.of_nat i in
  let markerlessIdx := (Z.of_nat i + offset)%Z in
  if (0 <=? markerIdx)%Z && (markerIdx <? Z.of_nat (List.length markerMovements))%Z
     && (0 <=? markerlessIdx)%Z && (markerlessIdx <? Z.of_nat (List.length markerlessMovements))%Z
  then
    match markerMovements !! Z.to_nat markerIdx, markerlessMovements !! Z.to_nat markerlessIdx with
    | Some a, Some b => (fst acc + a * b, (snd acc + 1)%Z)
    | _, _ => acc
    end
  else acc.

Definition correlation_at (markerMovements markerlessMovements : list F) (syncWindowSize : Z)
    (offset : Z) : F * Z :=
  fold_left (correlation_step markerMovements markerlessMovements offset)
    (seq 0 (Z.to_nat syncWindowSize)) (num_zero, 0%Z).

(** [correlation /= count], the average product that is compared. *)
Definition average_product (markerMovements markerlessMovements : list F) (syncWindowSize : Z)
    (offset : Z) : F :=
  let sums := correlation_at markerMovements markerlessMovements syncWindowSize offset in
  fst sums / num_of_Z (snd sums).

(** The body of the offset loop; the state is [(bestOffset, bestCorrelation)]. *)
Definition offset_step (markerMovements markerlessMovements : list F) (syncWindowSize : Z)
    (best : Z * F) (offset : Z) : Z * F :=
  if (0 <? snd (correlation_at markerMovements markerlessMovements syncWindowSize offset))%Z then
    let correlation := average_product markerMovements markerlessMovements syncWindowSize offset in
    if num_gtb correlation (snd best) then (offset, correlation) else best
  else best.

(** [for (let offset = -maxOffset; offset <= maxOffset; offset++)] *)
Definition offsets (maxOffset : nat) : list Z :=
  List.map (λ k, (Z.of_nat k - Z.of_nat maxOffset)%Z) (seq 0 (2 * maxOffset + 1)).

Definition bestOffset (markerFrames markerlessFrames : list (Frame F)) (syncWindowSize : Z) : Z :=
  let markerMovements := calculateMovement markerFrames in
  let markerlessMovements := calculateMovement markerlessFrames in
  let maxOffset := Nat.min (Nat.div (List.length markerFrames) 4)
                           (Nat.div (List.length markerlessFrames) 4) in
  fst (fold_left (offset_step markerMovements markerlessMovements syncWindowSize)
         (offsets maxOffset) (0%Z, num_neg_infinity)).

(** The result is the pair [{ markerFrames, markerlessFrames }]. *)
Definition synchronizeData (markerFrames markerlessFrames : list (Frame F)) (syncWindowSize : Z)
  : list (Frame F) * list (Frame F) :=
  if (Z.of_nat (List.length markerFrames) <? syncWindowSize)%Z
     || (Z.of_nat (List.length markerlessFrames) <? syncWindowSize)%Z
  then (markerFrames, markerlessFrames)
  else
    let best := bestOffset markerFrames markerlessFrames syncWindowSize in
    if (0 <? best)%Z then (drop (Z.to_nat best) markerFrames, markerlessFrames)
    else if (best <? 0)%Z then (markerFrames, drop (Z.to_nat (- best)) markerlessFrames)
    else (markerFrames, markerlessFrames).

End Synchronizer.

(** *** How a call ends

    Neither [applyTemporalSmoothing] nor [synchronizeData] contains a [throw],
    and every property they read is read from a frame inside the list: a call
    always ends by returning. *)

Inductive Outcome (A : Type) : Type :=
  | Returned (value : A)
  | InvalidArgument.
Arguments Returned {A} _.
Arguments InvalidArgument {A}.

Definition applyTemporalSmoothing_outcome {F} `{Number F} (frames : list (Frame F)) (windowSize : Z)
  : Outcome (list (Frame F)) :=
  Returned (applyTemporalSmoothing frames windowSize).

Definition synchronizeData_outcome {F} `{Number F} `{NumberInf F}
    (markerFrames markerlessFrames : list (Frame F)) (syncWindowSize : Z)
  : Outcome (list (Frame F) * list (Frame F)) :=
  Returned (synchronizeData markerFrames markerlessFrames syncWindowSize).

(** ** The two instances of the arithmetic *)

(** [Math.max] on binary64: a NaN argument gives NaN, and [+0] is above [-0]. *)
Definition float_max (a b : PrimFloat.float) : PrimFloat.float :=
  if PrimFloat.is_nan a then a
  else if PrimFloat.is_nan b then b
  else if PrimFloat.ltb a b then b
  else if PrimFloat.ltb b a then a
  else if PrimFloat.get_sign a then b else a.

Definition float_of_Z (z : Z) : PrimFloat.float :=
  if (z <? 0)%Z
  then PrimFloat.opp (PrimFloat.of_uint63 (Uint63.of_Z (- z)))
  else PrimFloat.of_uint63 (Uint63.of_Z z).

#[export] Instance float_Number : Number PrimFloat.float := {|
  num_zero := 0%float;
  num_one := 1%float;
  num_half := 0.5%float;
  num_add := PrimFloat.add;
  num_sub := PrimFloat.sub;
  num_mul := PrimFloat.mul;
  num_div := PrimFloat.div;
  num_sqrt := PrimFloat.sqrt;
  num_ltb := PrimFloat.ltb;
  num_max := float_max;
  num_of_Z := float_of_Z
|}.

#[export] Instance float_NumberInf : NumberInf PrimFloat.float := {|
  num_neg_infinity := PrimFloat.neg_infinity
|}.

Definition Rltb (a b : R) : bool := if Rlt_dec a b then true else false.

#[export] Instance R_Number : Number R := {|
  num_zero := 0%R;
  num_one := 1%R;
  num_half := (1 / 2)%R;
  num_add := Rplus;
  num_sub := Rminus;
  num_mul := Rmult;
  num_div := Rdiv;
  num_sqrt := sqrt;
  num_ltb := Rltb;
  num_max := Rmax;
  num_of_Z := IZR
|}.

(** ** Auxiliary definitions used by the statements *)

(** What the solver reads of a node: its working position and its weight. *)
Definition node_state {F} (node : Node F) : Point2D F * F := (newPosition node, weight node).

(** The two positions one correction step assigns to the endpoints of a joint
    of target length [len], from the working positions [startPos], [endPos]
    and the weights [wStart], [wEnd] of the two nodes. *)
Definition corrected_positions {F} `{Number F} (startPos endPos : Point2D F) (wStart wEnd len : F)
  : Point2D F * Point2D F :=
  let currentDistance := calculateDistance startPos endPos in
  let correction := ((len - currentDistance) / currentDistance)%num in
  let dx := (px endPos - px startPos)%num in
  let dy := (py endPos - py startPos)%num in
  let totalWeight := (wStart + wEnd)%num in
  let startWeight := (wEnd / totalWeight)%num in
  let endWeight := (wStart / totalWeight)%num in
  (mkPoint (px startPos - dx * correction * startWeight * num_half)%num
           (py startPos - dy * correction * startWeight * num_half)%num,
   mkPoint (px endPos + dx * correction * endWeight * num_half)%num
           (py endPos + dy * correction * endWeight * num_half)%num).


(** The sample the fusion leaves under [markerId] when the primary frame
    holds [marker] there. *)
Definition blended_sample {F} `{Number F} (markerlessFrame : Frame F) (blendRatio : F)
    (markerId : string) (marker : MarkerSample F) : MarkerSample F :=
  match markers markerlessFrame !! markerId with
  | Some markerlessMarker =>
      if isVisible marker && isVisible markerlessMarker then
        let markerWeight := (confidence marker * (num_one - blendRatio))%num in
        let markerlessWeight := (confidence markerlessMarker * blendRatio)%num in
        let totalWeight := (markerWeight + markerlessWeight)%num in
        if num_gtb totalWeight num_zero then
          mkSample
            ((marker_x marker * markerWeight + marker_x markerlessMarker * markerlessWeight)
               / totalWeight)%num
            ((marker_y marker * markerWeight + marker_y markerlessMarker * markerlessWeight)
               / totalWeight)%num
            (num_max (confidence marker) (confidence markerlessMarker))
            (isVisible marker)
        else marker
      else marker
  | None => marker
  end.

(** The state of the offset scan while only negative offsets have been
    visited: the initial one, or an accepted negative offset with its average
    product. *)
Definition before_zero {F} `{Number F} `{NumberInf F} (movA movB : list F) (w : Z)
    (maxOffset : nat) (best : Z * F) : Prop :=
  best = (0%Z, num_neg_infinity)
  ∨ ∃ k, (- Z.of_nat maxOffset ≤ k < 0)%Z
         ∧ (0 < snd (correlation_at movA movB w k))%Z
         ∧ best = (k, average_product movA movB w k).

(** ** Concrete inputs *)

(** A sample with integer coordinates and confidence. *)
Definition sample_at {F} `{Number F} (x y c : Z) (visible : bool) : MarkerSample F :=
  mkSample (num_of_Z x) (num_of_Z y) (num_of_Z c) visible.

Definition frame_of {F} `{Number F} (ms : list (string * MarkerSample F)) : Frame F :=
  mkFrame 0 num_zero (list_to_map ms).

(** [{A: (0,0) conf 1 visible, B: (3,4) conf 1 visible}] *)
Definition frame_AB {F} `{Number F} : Frame F :=
  frame_of [("A"%string, sample_at 0 0 1 true); ("B"%string, sample_at 3 4 1 true)].

(** The joint A-B with an integer target length. *)
Definition joint_AB {F} `{Number F} (len : Z) : Joint F :=
  mkJoint "A" "B" (num_of_Z len) "A-B".

(** The frame of [frame_AB] with both confidences 0. *)
Definition frame_AB_zero_confidence {F} `{Number F} : Frame F :=
  frame_of [("A"%string, sample_at 0 0 0 true); ("B"%string, sample_at 3 4 0 true)].

(** The joint A-C with an integer target length. *)
Definition joint_AC {F} `{Number F} (len : Z) : Joint F :=
  mkJoint "A" "C" (num_of_Z len) "A-C".

(** A at (0,0) and C at (5,0) visible, B absent. *)
Definition frame_B_absent {F} `{Number F} : Frame F :=
  frame_of [("A"%string, sample_at 0 0 1 true); ("C"%string, sample_at 5 0 1 true)].

(** The same frame with B present and [isVisible = false]. *)
Definition frame_B_invisible {F} `{Number F} : Frame F :=
  frame_of [("A"%string, sample_at 0 0 1 true); ("B"%string, sample_at 0 0 0 false);
            ("C"%string, sample_at 5 0 1 true)].

(** Frame number [n] with the single marker A at [(x, y)], confidence [c], visible. *)
Definition frame_A {F} `{Number F} (n x y c : Z) : Frame F :=
  mkFrame n num_zero (list_to_map [("A"%string, sample_at x y c true)]).

(** Four frames of a marker that does not move. *)
Definition still_sequence {F} `{Number F} : list (Frame F) :=
  [frame_A 0 1 2 1; frame_A 1 1 2 1; frame_A 2 1 2 1; frame_A 3 1 2 1].

(** Four frames of a marker that moves once, between the first two. *)
Definition one_move_sequence {F} `{Number F} : list (Frame F) :=
  [frame_A 0 0 0 1; frame_A 1 3 4 1; frame_A 2 3 4 1; frame_A 3 3 4 1].

(** Four frames of a marker that moves by 1 and then by 10 per frame. *)
Definition speeding_sequence {F} `{Number F} : list (Frame F) :=
  [frame_A 0 0 0 1; frame_A 1 1 0 1; frame_A 2 11 0 1; frame_A 3 21 0 1].

(** Two frames of a visible marker whose confidence is 0. *)
Definition zero_confidence_sequence {F} `{Number F} : list (Frame F) :=
  [frame_A 0 1 2 0; frame_A 1 3 4 0].

(** A secondary frame that sees only A, elsewhere. *)
Definition frame_A_elsewhere {F} `{Number F} : Frame F :=
  frame_of [("A"%string, sample_at 7 7 1 true)].

(** ** Proof support *)

(** Reads the interface operations at [R] as the operations of [R]. *)
Ltac real_ops :=
  cbn [num_zero num_one num_half num_add num_sub num_mul num_div num_sqrt num_ltb num_max
       num_of_Z R_Number num_gtb px py fst snd] in *.


(** ** Further functions of the module *)

(** A marker of the skeleton model (types.ts). *)
Record Marker (F : Type) := mkMarker {
  marker_id : string;
  marker_name : string;
  marker_position : Point2D F;
  marker_segment : string;
  marker_confidence : F;
  marker_isVisible : bool
}.
Arguments mkMarker {F} _ _ _ _ _ _.
Arguments marker_id {F} _.
Arguments marker_name {F} _.
Arguments marker_position {F} _.
Arguments marker_segment {F} _.
Arguments marker_confidence {F} _.
Arguments marker_isVisible {F} _.

Record SkeletonModel (F : Type) := mkModel {
  model_id : string;
  model_name : string;
  model_markers : list (Marker F);
  model_joints : list (Joint F)
}.
Arguments mkModel {F} _ _ _ _.
Arguments model_id {F} _.
Arguments model_name {F} _.
Arguments model_markers {F} _.
Arguments model_joints {F} _.

(** [{ x: number, y: number, z: number }] *)
Record Point3D (F : Type) := mkPoint3D { p3x : F; p3y : F; p3z : F }.
Arguments mkPoint3D {F} _ _ _.
Arguments p3x {F} _.
Arguments p3y {F} _.
Arguments p3z {F} _.

(** The entries [projectionMatrix[r][c]] that [projectMarkersTo2D] reads:
    rows 0 to 2, columns 0 to 3.  A matrix that lacks one of them is outside
    the embedding. *)
Definition Row4 (F : Type) : Type := F * F * F * F.
Definition Matrix34 (F : Type) : Type := Row4 F * Row4 F * Row4 F.

(** A keypoint of a TensorFlow.js pose; [score] may be missing. *)
Record Keypoint (F : Type) := mkKeypoint {
  keypoint_name : string;
  keypoint_x : F;
  keypoint_y : F;
  keypoint_score : option F
}.
Arguments mkKeypoint {F} _ _ _ _.
Arguments keypoint_name {F} _.
Arguments keypoint_x {F} _.
Arguments keypoint_y {F} _.
Arguments keypoint_score {F} _.

(** [pose.keypoints], possibly missing. *)
Record Pose (F : Type) := mkPose { keypoints : option (list (Keypoint F)) }.
Arguments mkPose {F} _.
Arguments keypoints {F} _.

(** [person.pose_keypoints_2d], possibly missing. *)
Record Person (F : Type) := mkPerson { pose_keypoints_2d : option (list F) }.
Arguments mkPerson {F} _.
Arguments pose_keypoints_2d {F} _.

(** [openPoseData.people], possibly missing. *)
Record OpenPoseData (F : Type) := mkOpenPose { people : option (list (Person F)) }.
Arguments mkOpenPose {F} _.
Arguments people {F} _.

(** What [convertOpenPoseToMarkers] stores for a keypoint.  The flat array is
    read at [3i], [3i+1], [3i+2] for every [i] with [3i] inside it, so [y]
    and [confidence] of a trailing incomplete triple are [undefined]
    ([None]). *)
Record OpenPoseSample (F : Type) := mkOpenPoseSample {
  openpose_x : F;
  openpose_y : option F;
  openpose_confidence : option F;
  openpose_isVisible : bool
}.
Arguments mkOpenPoseSample {F} _ _ _ _.
Arguments openpose_x {F} _.
Arguments openpose_y {F} _.
Arguments openpose_confidence {F} _.
Arguments openpose_isVisible {F} _.

(** A joint that has no positive length, or that does not end at [id]: the
    solver does not move the marker [id] for it. *)
Definition inert_at {F} `{Number F} (id : string) (joint : Joint F) : Prop :=
  num_gtb (joint_length joint) num_zero = false
  ∨ (startMarkerId joint ≠ id ∧ endMarkerId joint ≠ id).

(** Two graphs the solver cannot tell apart: the same nodes with the same
    working positions and weights. *)
Definition same_state {F} (g1 g2 : gmap string (Node F)) : Prop :=
  ∀ id, node_state <$> (g1 !! id) = node_state <$> (g2 !! id).

(** The graph still has, for every marker, the state it was built with. *)
Definition at_rest {F} (frame : Frame F) (graph : gmap string (Node F)) : Prop :=
  ∀ id, node_state <$> (graph !! id)
        = markers frame !! id ≫=
            (λ m, if isVisible m then Some (position m, confidence m) else None).

(** What the estimator may hold under [id] while it runs: the input frame's
    sample when the frame has one; otherwise nothing, or a sample of
    confidence 0.5, visible, placed by [estimatePosition] for a joint of
    positive length that ends at [id] and whose other end is visible in the
    input frame. *)
Definition filled_from {F} `{Number F} (frame : Frame F) (joints : list (Joint F))
    (ms : gmap string (MarkerSample F)) (id : string) : Prop :=
  match markers frame !! id with
  | Some m => ms !! id = Some m
  | None =>
      ms !! id = None
      ∨ ∃ joint knownId known p,
          joint ∈ joints
          ∧ num_gtb (joint_length joint) num_zero = true
          ∧ ((knownId = startMarkerId joint ∧ id = endMarkerId joint)
             ∨ (knownId = endMarkerId joint ∧ id = startMarkerId joint))
          ∧ markers frame !! knownId = Some known
          ∧ isVisible known = true
          ∧ estimatePosition frame joints joint knownId known = Some p
          ∧ ms !! id = Some (mkSample (px p) (py p) num_half true)
  end.

Section Conversions.
Context {F : Type} `{Number F}.
Local Open Scope num_scope.

(** *** Joint lengths *)

(** The callback of [joints.map] in [initializeJointLengths] and in
    [calculateJointLengths]: [{ ...joint, length }] when both endpoints are
    visible, the joint itself otherwise. *)
Definition measure_joint (frame : Frame F) (joint : Joint F) : Joint F :=
  match markers frame !! startMarkerId joint, markers frame !! endMarkerId joint with
  | Some startMarker, Some endMarker =>
      if isVisible startMarker && isVisible endMarker
      then mkJoint (startMarkerId joint) (endMarkerId joint)
             (calculateDistance (position startMarker) (position endMarker))
             (joint_name joint)
      else joint
  | _, _ => joint
  end.

Definition initializeJointLengths (joints : list (Joint F)) (frame : Frame F) : list (Joint F) :=
  List.map (measure_joint frame) joints.

Definition calculateJointLengths (skeletonModel : SkeletonModel F) (frame : Frame F)
  : list (Joint F) :=
  List.map (measure_joint frame) (model_joints skeletonModel).

(** *** Projection *)

(** The body of [Object.entries(markers3D).forEach]: the homogeneous image of
    one marker and its perspective division. *)
Definition project_point (projectionMatrix : Matrix34 F) (position : Point3D F) : Point2D F :=
  let '(m00, m01, m02, m03, (m10, m11, m12, m13), (m20, m21, m22, m23)) := projectionMatrix in
  let x := m00 * p3x position + m01 * p3y position + m02 * p3z position + m03 in
  let y := m10 * p3x position + m11 * p3y position + m12 * p3z position + m13 in
  let w := m20 * p3x position + m21 * p3y position + m22 * p3z position + m23 in
  mkPoint (x / w) (y / w).

Definition projectMarkersTo2D (markers3D : gmap string (Point3D F)) (projectionMatrix : Matrix34 F)
  : gmap string (Point2D F) :=
  map_fold (λ markerId position markers2D,
              <[markerId := project_point projectionMatrix position]> markers2D)
    ∅ markers3D.

(** *** Pose converters *)

(** The literal [0.2], as the quotient of 2 by 10: on binary64 the quotient is
    the literal, on [R] it is one fifth. *)
Definition visibility_threshold : F := num_of_Z 2 / num_of_Z 10.

(** [keypoint.score || 0]: a missing score, a zero and a NaN give 0. *)
Definition score_or_zero (score : option F) : F :=
  match score with
  | Some s => if num_ltb s num_zero || num_ltb num_zero s then s else num_zero
  | None => num_zero
  end.

(** The body of [pose.keypoints.forEach]; [if (markerId)] rejects a missing
    entry of the mapping and the empty string. *)
Definition convert_keypoint (markerMapping : gmap string string)
    (markers : gmap string (MarkerSample F)) (keypoint : Keypoint F)
  : gmap string (MarkerSample F) :=
  match markerMapping !! keypoint_name keypoint with
  | Some markerId =>
      if String.eqb markerId ""
      then markers
      else <[markerId :=
               mkSample (keypoint_x keypoint) (keypoint_y keypoint)
                 (score_or_zero (keypoint_score keypoint))
                 (num_gtb (score_or_zero (keypoint_score keypoint)) visibility_threshold)]>
             markers
  | None => markers
  end.

(** [pose] is [None] for a null pose. *)
Definition convertTFJSPoseToMarkers (pose : option (Pose F)) (markerMapping : gmap string string)
  : gmap string (MarkerSample F) :=
  match pose with
  | Some p =>
      match keypoints p with
      | Some kps => fold_left (convert_keypoint markerMapping) kps ∅
      | None => ∅
      end
  | None => ∅
  end.

(** [confidence > 0.2], false for an [undefined] confidence. *)
Definition above_threshold (confidence : option F) : bool :=
  match confidence with
  | Some c => num_gtb c visibility_threshold
  | None => false
  end.

(** The body of the loop of [convertOpenPoseToMarkers] for index [i]; the key
    looked up is [`openpose_kpt_${i}`]. *)
Definition convert_openpose_keypoint (markerMapping : gmap string string) (values : list F)
    (markers : gmap string (OpenPoseSample F)) (i : nat) : gmap string (OpenPoseSample F) :=
  match values !! (i * 3)%nat with
  | Some x =>
      let y := values !! (i * 3 + 1)%nat in
      let confidence := values !! (i * 3 + 2)%nat in
      match markerMapping !! ("openpose_kpt_" +:+ pretty i) with
      | Some markerId =>
          if String.eqb markerId ""
          then markers
          else <[markerId := mkOpenPoseSample x y confidence (above_threshold confidence)]> markers
      | None => markers
      end
  | None => markers
  end.

(** [for (let i = 0; i < values.length / 3; i++)]: the indices [i] with
    [3 * i < values.length]. *)
Definition openpose_indices (values : list F) : list nat :=
  seq 0 (Nat.div (List.length values + 2) 3).

(** [openPoseData] is [None] for null data; only [people[0]] is read. *)
Definition convertOpenPoseToMarkers (openPoseData : option (OpenPoseData F))
    (markerMapping : gmap string string) : gmap string (OpenPoseSample F) :=
  match openPoseData with
  | Some data =>
      match people data with
      | Some (person :: _) =>
          match pose_keypoints_2d person with
          | Some values =>
              fold_left (convert_openpose_keypoint markerMapping values)
                (openpose_indices values) ∅
          | None => ∅
          end
      | _ => ∅
      end
  | None => ∅
  end.

End Conversions.

(** The sample [convertTFJSPoseToMarkers] stores for a keypoint. *)
Definition keypoint_sample {F} `{Number F} (keypoint : Keypoint F) : MarkerSample F :=
  mkSample (keypoint_x keypoint) (keypoint_y keypoint)
    (score_or_zero (keypoint_score keypoint))
    (num_gtb (score_or_zero (keypoint_score keypoint)) visibility_threshold).

(** [k * projectionMatrix], entry by entry. *)
Definition scale_matrix {F} `{Number F} (k : F) (projectionMatrix : Matrix34 F) : Matrix34 F :=
  let '(m00, m01, m02, m03, (m10, m11, m12, m13), (m20, m21, m22, m23)) := projectionMatrix in
  ((k * m00, k * m01, k * m02, k * m03)%num,
   (k * m10, k * m11, k * m12, k * m13)%num,
   (k * m20, k * m21, k * m22, k * m23)%num).



(** ** Further concrete inputs *)

(** A, B and C visible, at (0,0), (3,4) and (5,0). *)
Definition frame_ABC {F} `{Number F} : Frame F :=
  frame_of [("A"%string, sample_at 0 0 1 true); ("B"%string, sample_at 3 4 1 true);
            ("C"%string, sample_at 5 0 1 true)].

(** A pose with a scored keypoint, a keypoint without score and a keypoint
    the mapping does not know. *)
Definition pose_example : Pose float :=
  mkPose (Some [mkKeypoint "nose" 1 2 (Some 0.9); mkKeypoint "left_eye" 3 4 None;
                mkKeypoint "tail" 5 6 (Some 0.9)]%float).

Definition pose_mapping : gmap string string :=
  list_to_map [("nose"%string, "RHEAD"%string); ("left_eye"%string, "LHEAD"%string)].

(** One complete triple and a trailing incomplete one. *)
Definition openpose_example : OpenPoseData float :=
  mkOpenPose (Some [mkPerson (Some [10; 20; 0.9; 30]%float)]).

Definition openpose_mapping : gmap string string :=
  list_to_map [("openpose_kpt_0"%string, "A"%string); ("openpose_kpt_1"%string, "B"%string)].


(** ** Statistics of the analysis view (AnalysisView.tsx) *)

(** [Math.min], which only the statistics use. *)
Class NumberMin (F : Type) := {
  num_min : F → F → F
}.

(** [Math.min] on binary64: a NaN argument gives NaN, and [-0] is below [+0]. *)
Definition float_min (a b : PrimFloat.float) : PrimFloat.float :=
  if PrimFloat.is_nan a then a
  else if PrimFloat.is_nan b then b
  else if PrimFloat.ltb a b then a
  else if PrimFloat.ltb b a then b
  else if PrimFloat.get_sign a then a else b.

#[export] Instance float_NumberMin : NumberMin PrimFloat.float := {| num_min := float_min |}.
#[export] Instance R_NumberMin : NumberMin R := {| num_min := Rmin |}.

(** [{ mean, std, min, max }] *)
Record SeriesStats (F : Type) := mkStats {
  stat_mean : F;
  stat_std : F;
  stat_min : F;
  stat_max : F
}.
Arguments mkStats {F} _ _ _ _.
Arguments stat_mean {F} _.
Arguments stat_std {F} _.
Arguments stat_min {F} _.
Arguments stat_max {F} _.

Section Statistics.
Context {F : Type} `{Number F} `{NumberMin F}.
Local Open Scope num_scope.

(** [values.reduce((acc, val) => acc + val, 0)] *)
Definition series_sum (values : list F) : F := fold_left num_add values num_zero.

(** The body of the [forEach] for one series: nothing for an empty series;
    [Math.min(...values)] and [Math.max(...values)] are taken from the first
    value on. *)
Definition series_stats (values : list F) : option (SeriesStats F) :=
  match values with
  | [] => None
  | first :: others =>
      let count := num_of_Z (Z.of_nat (List.length values)) in
      let mean := series_sum values / count in
      let squaredDiffs := List.map (λ value, (value - mean) * (value - mean)) values in
      let variance := series_sum squaredDiffs / count in
      Some (mkStats mean (num_sqrt variance)
              (fold_left num_min others first) (fold_left num_max others first))
  end.

(** [data] maps a joint name to its [lengths]. *)
Definition calculateJointLengthStats (data : gmap string (list F)) : gmap string (SeriesStats F) :=
  map_fold
    (λ jointName lengths stats,
       match series_stats lengths with
       | Some s => <[jointName := s]> stats
       | None => stats
       end)
    ∅ data.

(** The same body, on the [velocities] of each marker. *)
Definition calculateVelocityStats (data : gmap string (list F)) : gmap string (SeriesStats F) :=
  map_fold
    (λ markerId velocities stats,
       match series_stats velocities with
       | Some s => <[markerId := s]> stats
       | None => stats
       end)
    ∅ data.

End Statistics.
(** * Properties *)

(** ** Loops over a marker table *)

Section MapLoops.
Context {A B : Type}.

(** A [forEach] over the entries of a table whose body touches only the entry
    of the key it visits acts pointwise. *)
Lemma map_fold_pointwise
    (step : string → A → gmap string B → gmap string B)
    (upd : string → A → option B → option B)
    (Hstep : ∀ k v acc j,
        step k v acc !! j = if decide (j = k) then upd k v (acc !! k) else acc !! j)
    (m : gmap string A) (init : gmap string B) (j : string) :
  map_fold step init m !! j
  = match m !! j with Some v => upd j v (init !! j) | None => init !! j end.
Proof.
  revert j.
  apply (map_fold_weak_ind
           (λ r m', ∀ j, r !! j
              = match m' !! j with Some v => upd j v (init !! j) | None => init !! j end)).
  - intros j. by rewrite lookup_empty.
  - intros i x m' r Hfresh IH j. rewrite Hstep, lookup_insert.
    destruct (decide (j = i)) as [->|Hne].
    + rewrite decide_True by done. rewrite IH, Hfresh. done.
    + rewrite decide_False by congruence. apply IH.
Qed.

End MapLoops.

Section EngineFacts.
Context {F : Type} `{Number F}.

Lemma with_position_id (m : MarkerSample F) : with_position m (position m) = m.
Proof. by destruct m. Qed.

Lemma with_markers_id (frame : Frame F) : with_markers frame (markers frame) = frame.
Proof. by destruct frame. Qed.

(** *** The solver's graph *)

Lemma init_graph_lookup (frame : Frame F) (id : string) :
  init_graph frame !! id
  = markers frame !! id ≫=
      (λ m, if isVisible m
            then Some (mkNode [] (position m) (position m) (confidence m))
            else None).
Proof.
  unfold init_graph.
  rewrite (map_fold_pointwise _
             (λ _ m o, if isVisible m
                       then Some (mkNode [] (position m) (position m) (confidence m))
                       else o)).
  - destruct (markers frame !! id) as [m|]; simpl; [|done].
    destruct (isVisible m); [done|apply lookup_empty].
  - intros k v acc j. destruct (isVisible v).
    + rewrite lookup_insert. destruct (decide (k = j)), (decide (j = k)); congruence.
    + destruct (decide (j = k)); congruence.
Qed.

Lemma push_neighbor_state (id other : string) (graph : gmap string (Node F)) (j : string) :
  node_state <$> (push_neighbor id other graph !! j) = node_state <$> (graph !! j).
Proof.
  unfold push_neighbor. destruct (graph !! id) as [node|] eqn:Hid; [|done].
  rewrite lookup_insert. destruct (decide (id = j)) as [<-|]; [|done].
  by rewrite Hid.
Qed.

Lemma add_connection_state (frame : Frame F) (graph : gmap string (Node F)) (joint : Joint F)
    (j : string) :
  node_state <$> (add_connection frame graph joint !! j) = node_state <$> (graph !! j).
Proof.
  unfold add_connection.
  destruct (markers frame !! startMarkerId joint) as [s|]; [|done].
  destruct (markers frame !! endMarkerId joint) as [e|]; [|done].
  destruct (isVisible s && isVisible e && num_gtb (joint_length joint) num_zero); [|done].
  by rewrite !push_neighbor_state.
Qed.

Lemma add_connections_state (frame : Frame F) (joints : list (Joint F))
    (graph : gmap string (Node F)) (j : string) :
  node_state <$> (fold_left (add_connection frame) joints graph !! j)
  = node_state <$> (graph !! j).
Proof.
  revert graph. induction joints as [|joint joints IH]; intros graph; simpl; [done|].
  by rewrite IH, add_connection_state.
Qed.

(** The state of the node of [id] once the graph is built. *)
Lemma built_graph_state (frame : Frame F) (joints : list (Joint F)) (id : string) :
  node_state <$> (fold_left (add_connection frame) joints (init_graph frame) !! id)
  = markers frame !! id ≫=
      (λ m, if isVisible m then Some (position m, confidence m) else None).
Proof.
  rewrite add_connections_state, init_graph_lookup.
  destruct (markers frame !! id) as [m|]; simpl; [|done].
  by destruct (isVisible m).
Qed.

Lemma write_back_lookup (graph : gmap string (Node F)) (ms : gmap string (MarkerSample F))
    (id : string) :
  write_back graph ms !! id
  = match graph !! id with
    | Some node => (λ m, with_position m (newPosition node)) <$> (ms !! id)
    | None => ms !! id
    end.
Proof.
  unfold write_back.
  rewrite (map_fold_pointwise _
             (λ _ node o, (λ m, with_position m (newPosition node)) <$> o)); [done|].
  intros k v acc j. destruct (acc !! k) as [m|] eqn:Hk; simpl.
  - rewrite lookup_insert. destruct (decide (k = j)), (decide (j = k)); congruence.
  - destruct (decide (j = k)); congruence.
Qed.

End EngineFacts.

Section SolverZero.
Context {F : Type} `{Number F}.

(** C7. With [iterations = 0] the solver returns the input frame: every marker
    keeps its position, confidence and visibility, and the key set, the frame
    number and the timestamp are those of the input. *)
Theorem applyLengthConstraints_zero_iterations (frame : Frame F) (joints : list (Joint F)) :
  applyLengthConstraints frame joints 0 = frame.
Proof.
  transitivity (with_markers frame (markers frame)); [|apply with_markers_id].
  unfold applyLengthConstraints. simpl. f_equal.
  apply map_eq. intros id. rewrite write_back_lookup.
  pose proof (built_graph_state frame joints id) as Hst.
  destruct (fold_left (add_connection frame) joints (init_graph frame) !! id) as [node|];
    [|done].
  destruct (markers frame !! id) as [m|]; simpl in *; [|done].
  destruct (isVisible m); [|done].
  injection Hst as Hpos _. unfold node_state in *. simpl.
  by rewrite Hpos, with_position_id.
Qed.

End SolverZero.

Section SingleJoint.
Context {F : Type} `{Number F}.

Lemma set_newPosition_lookup (id : string) (p : Point2D F) (graph : gmap string (Node F))
    (j : string) :
  set_newPosition id p graph !! j
  = if decide (j = id)
    then (λ node, mkNode (neighbors node) (originalPosition node) p (weight node)) <$> (graph !! id)
    else graph !! j.
Proof.
  unfold set_newPosition. destruct (decide (j = id)) as [->|Hne].
  - destruct (graph !! id) as [node|] eqn:Hid; simpl; [by rewrite lookup_insert_eq|done].
  - destruct (graph !! id); [by rewrite lookup_insert_ne|done].
Qed.

(** One correction step on a joint whose two (distinct) endpoints are nodes. *)
Lemma relax_joint_corrects (graph : gmap string (Node F)) (joint : Joint F)
    (startNode endNode : Node F) :
  startMarkerId joint ≠ endMarkerId joint →
  graph !! startMarkerId joint = Some startNode →
  graph !! endMarkerId joint = Some endNode →
  num_gtb (joint_length joint) num_zero = true →
  num_gtb (calculateDistance (newPosition startNode) (newPosition endNode)) num_zero = true →
  let ps := corrected_positions (newPosition startNode) (newPosition endNode)
              (weight startNode) (weight endNode) (joint_length joint) in
  node_state <$> (relax_joint graph joint !! startMarkerId joint)
    = Some (fst ps, weight startNode)
  ∧ node_state <$> (relax_joint graph joint !! endMarkerId joint)
    = Some (snd ps, weight endNode).
Proof.
  intros Hne Hs He HL Hd ps. unfold relax_joint.
  rewrite Hs, He, HL, Hd. rewrite !set_newPosition_lookup.
  split; repeat (case_decide; try congruence); rewrite ?Hs, ?He; done.
Qed.

(** The solver on a single joint between two distinct visible markers, one pass. *)
Lemma solve_single_joint (frame : Frame F) (a b name : string) (len : F)
    (ma mb : MarkerSample F) :
  a ≠ b →
  markers frame !! a = Some ma →
  markers frame !! b = Some mb →
  isVisible ma = true →
  isVisible mb = true →
  num_gtb len num_zero = true →
  num_gtb (calculateDistance (position ma) (position mb)) num_zero = true →
  let ps := corrected_positions (position ma) (position mb) (confidence ma) (confidence mb) len in
  let out := applyLengthConstraints frame [mkJoint a b len name] 1 in
  markers out !! a = Some (with_position ma (fst ps))
  ∧ markers out !! b = Some (with_position mb (snd ps)).
Proof.
  intros Hne Ha Hb Hva Hvb HL Hd ps out.
  set (joint := mkJoint a b len name) in *.
  set (g0 := fold_left (add_connection frame) [joint] (init_graph frame)).
  assert (Hga : node_state <$> (g0 !! a) = Some (position ma, confidence ma)).
  { unfold g0. rewrite built_graph_state, Ha. simpl. by rewrite Hva. }
  assert (Hgb : node_state <$> (g0 !! b) = Some (position mb, confidence mb)).
  { unfold g0. rewrite built_graph_state, Hb. simpl. by rewrite Hvb. }
  subst out.
  change (markers (applyLengthConstraints frame [joint] 1))
    with (write_back (relax_joint g0 joint) (markers frame)).
  clearbody g0.
  destruct (g0 !! a) as [na|] eqn:Hna; [|done].
  destruct (g0 !! b) as [nb|] eqn:Hnb; [|done].
  injection Hga as Hpa Hwa. injection Hgb as Hpb Hwb.
  destruct (relax_joint_corrects g0 joint na nb) as [Hra Hrb];
    [done|done|done|done| by rewrite Hpa, Hpb |].
  rewrite Hpa, Hpb, Hwa, Hwb in Hra, Hrb. change (joint_length joint) with len in Hra, Hrb.
  change (startMarkerId joint) with a in Hra. change (endMarkerId joint) with b in Hrb.
  fold ps in Hra, Hrb.
  rewrite !write_back_lookup.
  destruct (relax_joint g0 joint !! a) as [na'|]; [|done].
  destruct (relax_joint g0 joint !! b) as [nb'|]; [|done].
  injection Hra as Hra _. injection Hrb as Hrb _.
  rewrite Ha, Hb, Hra, Hrb. done.
Qed.

End SingleJoint.

(** ** Real arithmetic *)

Section RealArithmetic.
Local Open Scope R_scope.

Lemma Rltb_true (a b : R) : Rltb a b = true ↔ a < b.
Proof. unfold Rltb. destruct (Rlt_dec a b); split; (done || lra). Qed.

(** One correction step brings the two endpoints to distance [(d + len) / 2]. *)
Lemma corrected_distance (startPos endPos : Point2D R) (wStart wEnd len : R) :
  0 < calculateDistance startPos endPos → 0 < len → 0 < wStart → 0 < wEnd →
  calculateDistance (fst (corrected_positions startPos endPos wStart wEnd len))
                    (snd (corrected_positions startPos endPos wStart wEnd len))
  = (calculateDistance startPos endPos + len) / 2.
Proof.
  intros Hd HL Hws Hwe.
  destruct startPos as [sx sy], endPos as [ex ey].
  unfold corrected_positions, calculateDistance in *. real_ops.
  set (S := (ex - sx) * (ex - sx) + (ey - sy) * (ey - sy)) in *.
  set (d := sqrt S) in *.
  set (k := (d + len) / (2 * d)).
  assert (Hk : 0 <= k).
  { unfold k. apply Rlt_le, Rdiv_lt_0_compat; lra. }
  assert (HS : 0 <= S).
  { pose proof (Rle_0_sqr (ex - sx)). pose proof (Rle_0_sqr (ey - sy)).
    unfold S, Rsqr in *. lra. }
  match goal with |- sqrt ?e = _ => replace e with ((k * k) * S) end.
  - rewrite sqrt_mult; [|by apply Rmult_le_pos|done]. rewrite sqrt_square by done.
    fold d. unfold k. field. lra.
  - unfold S, k. field. lra.
Qed.

End RealArithmetic.

Section SolverReal.
Local Open Scope R_scope.




End SolverReal.

Section SolverExample.

Lemma frame_AB_distance_R :
  calculateDistance (F:=R) (position (sample_at 0 0 1 true)) (position (sample_at 3 4 1 true))
  = 5%R.
Proof.
  unfold calculateDistance, position, sample_at. real_ops. simpl.
  replace ((3 - 0) * (3 - 0) + (4 - 0) * (4 - 0))%R with (5 * 5)%R by lra.
  apply sqrt_square. lra.
Qed.

(** C5. On the frame [{A: (0,0), B: (3,4)}] (confidence 1, visible) with the
    joint A-B of target length 10, one pass moves A to (-0.75, -1) and B to
    (3.75, 5): equal and opposite displacements, and the new distance is 7.5.
    This holds for the binary64 evaluation and for the real-valued one. *)
Theorem solve_example_AB_distance :
  (let out := applyLengthConstraints (F:=float) frame_AB [joint_AB 10] 1 in
   markers out !! "A"%string = Some (mkSample (-0.75) (-1) 1 true)%float
   ∧ markers out !! "B"%string = Some (mkSample 3.75 5 1 true)%float
   ∧ calculateDistance (mkPoint (-0.75) (-1))%float (mkPoint 3.75 5)%float = 7.5%float)
  ∧ (let out := applyLengthConstraints (F:=R) frame_AB [joint_AB 10] 1 in
     ∃ a' b',
       markers out !! "A"%string = Some a'
       ∧ markers out !! "B"%string = Some b'
       ∧ position a' = mkPoint (- (3 / 4))%R (- 1)%R
       ∧ position b' = mkPoint (15 / 4)%R 5%R
       ∧ calculateDistance (position a') (position b') = (15 / 2)%R).
Proof.
  split.
  - vm_compute. done.
  - intros out.
    destruct (solve_single_joint (F:=R) frame_AB "A" "B" "A-B" 10%R
                (sample_at 0 0 1 true) (sample_at 3 4 1 true)) as [Ha Hb];
      try done.
    { apply Rltb_true. real_ops. lra. }
    { rewrite frame_AB_distance_R. apply Rltb_true. real_ops. lra. }
    eexists _, _. split; [exact Ha|]. split; [exact Hb|].
    assert (Hpos : ∀ m p, position (with_position (F:=R) m p) = p) by (by intros ? []).
    rewrite !Hpos.
    pose proof (corrected_distance (position (sample_at 0 0 1 true))
                  (position (sample_at 3 4 1 true)) 1%R 1%R 10%R) as Hdist.
    rewrite frame_AB_distance_R in Hdist.
    split; [|split]; [| |etransitivity; [apply Hdist; lra|real_ops; lra]].
    + unfold corrected_positions. rewrite frame_AB_distance_R.
      unfold position, sample_at. real_ops. simpl. f_equal; lra.
    + unfold corrected_positions. rewrite frame_AB_distance_R.
      unfold position, sample_at. real_ops. simpl. f_equal; lra.
Qed.


End SolverExample.

(** ** Source fusion *)

Section Fusion.
Context {F : Type} `{Number F}.

(** The fusion acts entry by entry on the primary frame. *)
Lemma blend_lookup (markerFrame markerlessFrame : Frame F) (blendRatio : F) (id : string) :
  markers (blendMarkerAndMarkerlessData markerFrame markerlessFrame blendRatio) !! id
  = blended_sample markerlessFrame blendRatio id <$> (markers markerFrame !! id).
Proof.
  unfold blendMarkerAndMarkerlessData. simpl.
  rewrite (map_fold_pointwise _
             (λ k marker o,
                match markers markerlessFrame !! k with
                | Some mm =>
                    if isVisible marker && isVisible mm
                       && num_gtb (confidence marker * (num_one - blendRatio)
                                   + confidence mm * blendRatio)%num num_zero
                    then Some (blended_sample markerlessFrame blendRatio k marker)
                    else o
                | None => o
                end)).
  - unfold blended_sample.
    destruct (markers markerFrame !! id) as [marker|]; simpl; [|done].
    destruct (markers markerlessFrame !! id) as [mm|]; [|done].
    destruct (isVisible marker && isVisible mm); simpl; [|done].
    by destruct (num_gtb _ _).
  - intros k v acc j. unfold blend_entry, blended_sample.
    destruct (markers markerlessFrame !! k) as [mm|];
      [|destruct (decide (j = k)); congruence].
    destruct (isVisible v && isVisible mm); simpl;
      [|destruct (decide (j = k)); congruence].
    destruct (num_gtb _ _); [|destruct (decide (j = k)); congruence].
    rewrite lookup_insert. destruct (decide (k = j)), (decide (j = k)); congruence.
Qed.

End Fusion.

Section FusionReal.
Local Open Scope R_scope.


End FusionReal.

(** ** Missing-marker estimator *)

Section Estimator.
Context {F : Type} `{Number F}.

(** A joint whose two endpoints are keys of the frame is passed over, whatever
    their visibility. *)
Lemma fill_joint_both_present (frame : Frame F) (joints : list (Joint F)) (st : fill_state)
    (joint : Joint F) (startMarker endMarker : MarkerSample F) :
  markers frame !! startMarkerId joint = Some startMarker →
  markers frame !! endMarkerId joint = Some endMarker →
  fill_joint frame joints st joint = st.
Proof. intros Hs He. unfold fill_joint. by rewrite Hs, He. Qed.

(** The joint at the head of the topology is the first joint that touches its
    own visible start, so its anchor marker is its own missing end and nothing
    is estimated. *)
Lemma fill_joint_head_missing_end (frame : Frame F) (rest : list (Joint F)) (st : fill_state)
    (joint : Joint F) (startMarker : MarkerSample F) :
  markers frame !! startMarkerId joint = Some startMarker →
  markers frame !! endMarkerId joint = None →
  fill_joint frame (joint :: rest) st joint = st.
Proof.
  intros Hs He. unfold fill_joint. rewrite Hs, He.
  destruct (isVisible startMarker && num_gtb (joint_length joint) num_zero) eqn:Hguard;
    [|done].
  apply andb_prop in Hguard as [_ Hlen].
  unfold estimatePosition, connectedJoints. simpl.
  rewrite String.eqb_refl, Hlen. simpl. by rewrite String.eqb_refl, He.
Qed.

(** The same with the start missing. *)
Lemma fill_joint_head_missing_start (frame : Frame F) (rest : list (Joint F)) (st : fill_state)
    (joint : Joint F) (endMarker : MarkerSample F) :
  markers frame !! startMarkerId joint = None →
  markers frame !! endMarkerId joint = Some endMarker →
  fill_joint frame (joint :: rest) st joint = st.
Proof.
  intros Hs He. unfold fill_joint. rewrite Hs, He.
  destruct (isVisible endMarker && num_gtb (joint_length joint) num_zero) eqn:Hguard;
    [|done].
  apply andb_prop in Hguard as [_ Hlen].
  unfold estimatePosition, connectedJoints. simpl.
  rewrite String.eqb_refl, orb_true_r, Hlen. simpl.
  destruct (String.eqb (startMarkerId joint) (endMarkerId joint)) eqn:Heq.
  - apply String.eqb_eq in Heq. congruence.
  - by rewrite Hs.
Qed.

End Estimator.

(** ** Temporal smoothing *)

Section Smoothing.
Context {F : Type} `{Number F}.

Lemma smooth_frame_lookup (frames : list (Frame F)) (windowSize : Z) (i : nat)
    (frame : Frame F) (id : string) :
  markers (smooth_frame frames windowSize i frame) !! id
  = match markers frame !! id with
    | Some marker => smooth_entry frames windowSize i id marker (markers frame) !! id
    | None => None
    end.
Proof.
  unfold smooth_frame. simpl.
  rewrite (map_fold_pointwise _
             (λ k marker o,
                let sums := windowSums frames windowSize i k in
                if (0 <? count sums)%Z && num_gtb (sumConfidence sums) num_zero
                then Some (mkSample (num_div (sumX sums) (sumConfidence sums))
                                    (num_div (sumY sums) (sumConfidence sums))
                                    (confidence marker) (isVisible marker))
                else o)).
  - destruct (markers frame !! id) as [marker|] eqn:Hid; [|done].
    unfold smooth_entry. simpl.
    destruct (_ && _); [by rewrite lookup_insert_eq|done].
  - intros k v acc j. unfold smooth_entry. simpl.
    destruct (_ && _); [|destruct (decide (j = k)); congruence].
    rewrite lookup_insert. destruct (decide (k = j)), (decide (j = k)); congruence.
Qed.

(** C10. When the confidences of the visible samples of a marker's window do
    not sum to a strictly positive number (in particular when there are such
    samples and they sum to 0), smoothing leaves the marker's sample in frame
    [i] as it is: the division by the summed confidence is not performed. *)
Theorem smoothing_needs_positive_confidence (frames : list (Frame F)) (windowSize : Z)
    (i : nat) (frame : Frame F) (markerId : string) :
  frames !! i = Some frame →
  num_gtb (sumConfidence (windowSums frames windowSize i markerId)) num_zero = false →
  ∃ frame',
    applyTemporalSmoothing frames windowSize !! i = Some frame'
    ∧ markers frame' !! markerId = markers frame !! markerId.
Proof.
  intros Hi Hsum. unfold applyTemporalSmoothing.
  destruct (_ || _); [by exists frame|].
  rewrite list_lookup_imap, Hi. simpl. eexists. split; [done|].
  rewrite smooth_frame_lookup.
  destruct (markers frame !! markerId) as [marker|] eqn:Hid; [|done].
  unfold smooth_entry. simpl. rewrite Hsum, andb_false_r. done.
Qed.

End Smoothing.

(** ** Temporal synchronizer *)

Section Synchronizing.
Context {F : Type} `{Number F} `{NumberInf F}.

Lemma fold_left_unchanged {S X : Type} (f : S → X → S) (l : list X) (st : S) :
  (∀ x, x ∈ l → f st x = st) → fold_left f l st = st.
Proof.
  induction l as [|x l IH]; intros Hf; simpl; [done|].
  rewrite Hf by left. apply IH. intros y Hy. apply Hf. by right.
Qed.

Lemma correlation_at_empty_window (markerMovements markerlessMovements : list F)
    (syncWindowSize offset : Z) :
  (syncWindowSize ≤ 0)%Z →
  correlation_at markerMovements markerlessMovements syncWindowSize offset = (num_zero, 0%Z).
Proof.
  intros Hw. unfold correlation_at.
  replace (Z.to_nat syncWindowSize) with 0%nat by lia. done.
Qed.

Lemma bestOffset_empty_window (markerFrames markerlessFrames : list (Frame F))
    (syncWindowSize : Z) :
  (syncWindowSize ≤ 0)%Z → bestOffset markerFrames markerlessFrames syncWindowSize = 0%Z.
Proof.
  intros Hw. unfold bestOffset. rewrite fold_left_unchanged; [done|].
  intros offset _. unfold offset_step.
  by rewrite correlation_at_empty_window.
Qed.

(** C9, as the code has it. A window size that is not positive is not
    reported as an invalid argument: smoothing returns the input sequence and
    the synchronizer returns the two input sequences, both unchanged. *)
Theorem nonpositive_window_returns_input (frames markerFrames markerlessFrames : list (Frame F))
    (w : Z) :
  (w ≤ 0)%Z →
  applyTemporalSmoothing_outcome frames w = Returned frames
  ∧ synchronizeData_outcome markerFrames markerlessFrames w
    = Returned (markerFrames, markerlessFrames).
Proof.
  intros Hw. split.
  - unfold applyTemporalSmoothing_outcome, applyTemporalSmoothing.
    replace (w <=? 1)%Z with true by (symmetry; apply Z.leb_le; lia).
    by rewrite orb_true_r.
  - unfold synchronizeData_outcome, synchronizeData.
    rewrite bestOffset_empty_window by done. simpl.
    by destruct (_ || _).
Qed.

End Synchronizing.

Section OffsetScan.
Context {F : Type} `{Number F} `{NumberInf F}.
Variables (movA movB : list F) (w : Z) (maxOffset : nat).

(** Offset 0 dominates: it has a valid sample, its average product is above
    [-Infinity] and strictly above that of every earlier offset with a valid
    sample, and no later offset is strictly above it. *)
Hypothesis zero_valid : (0 < snd (correlation_at movA movB w 0))%Z.
Hypothesis zero_finite :
  num_gtb (average_product movA movB w 0) num_neg_infinity = true.
Hypothesis zero_beats_earlier :
  ∀ k, (- Z.of_nat maxOffset ≤ k < 0)%Z → (0 < snd (correlation_at movA movB w k))%Z →
       num_gtb (average_product movA movB w 0) (average_product movA movB w k) = true.
Hypothesis later_not_above :
  ∀ k, (0 < k ≤ Z.of_nat maxOffset)%Z → (0 < snd (correlation_at movA movB w k))%Z →
       num_gtb (average_product movA movB w k) (average_product movA movB w 0) = false.

Lemma scan_negative_offsets (l : list Z) (best : Z * F) :
  (∀ k, k ∈ l → (- Z.of_nat maxOffset ≤ k < 0)%Z) →
  before_zero movA movB w maxOffset best →
  before_zero movA movB w maxOffset (fold_left (offset_step movA movB w) l best).
Proof.
  revert best. induction l as [|k l IH]; intros best Hl Hbest; simpl; [done|].
  apply IH; [intros k' Hk'; apply Hl; by right|].
  unfold offset_step.
  destruct (0 <? snd (correlation_at movA movB w k))%Z eqn:Hs; [|done].
  destruct (num_gtb (average_product movA movB w k) best.2); [|done].
  right. exists k. split; [apply Hl; by left|]. split; [by apply Z.ltb_lt|done].
Qed.

Lemma scan_offset_zero (best : Z * F) :
  before_zero movA movB w maxOffset best →
  offset_step movA movB w best 0 = (0%Z, average_product movA movB w 0).
Proof.
  intros Hbest. unfold offset_step.
  replace (0 <? snd (correlation_at movA movB w 0))%Z with true
    by (symmetry; by apply Z.ltb_lt).
  destruct Hbest as [->|(k & Hk & Hs & ->)]; simpl.
  - by rewrite zero_finite.
  - by rewrite zero_beats_earlier.
Qed.

Lemma scan_positive_offsets (l : list Z) :
  (∀ k, k ∈ l → (0 < k ≤ Z.of_nat maxOffset)%Z) →
  fold_left (offset_step movA movB w) l (0%Z, average_product movA movB w 0)
  = (0%Z, average_product movA movB w 0).
Proof.
  intros Hl. apply fold_left_unchanged. intros k Hk.
  unfold offset_step.
  destruct (0 <? snd (correlation_at movA movB w k))%Z eqn:Hs; [|done]. simpl.
  rewrite later_not_above; [done|by apply Hl|by apply Z.ltb_lt].
Qed.

Lemma offsets_split :
  offsets maxOffset
  = List.map (λ k, (Z.of_nat k - Z.of_nat maxOffset)%Z) (seq 0 maxOffset)
    ++ 0%Z :: List.map (λ k, (Z.of_nat k - Z.of_nat maxOffset)%Z) (seq (S maxOffset) maxOffset).
Proof.
  unfold offsets. replace (2 * maxOffset + 1)%nat with (maxOffset + S maxOffset)%nat by lia.
  rewrite seq_app, List.map_app. simpl. f_equal. f_equal. lia.
Qed.

Lemma scan_selects_zero :
  fold_left (offset_step movA movB w) (offsets maxOffset) (0%Z, num_neg_infinity)
  = (0%Z, average_product movA movB w 0).
Proof.
  rewrite offsets_split, fold_left_app. simpl.
  rewrite scan_offset_zero.
  - apply scan_positive_offsets. intros k Hk.
    apply list_elem_of_In, in_map_iff in Hk as (n & <- & Hn).
    apply in_seq in Hn. lia.
  - apply scan_negative_offsets; [|by left]. intros k Hk.
    apply list_elem_of_In, in_map_iff in Hk as (n & <- & Hn).
    apply in_seq in Hn. lia.
Qed.

End OffsetScan.

Section SelfAlignment.
Context {F : Type} `{Number F} `{NumberInf F}.

(** C1, as the code has it. Aligning a sequence with itself selects offset 0
    and returns the sequence twice when offset 0 dominates the scan: it has a
    valid sample, its average product is above [-Infinity], strictly above
    that of every negative offset that has a valid sample, and no positive
    offset is strictly above it. *)
Theorem synchronizeData_self_dominant (frames : list (Frame F)) (w : Z) :
  let mov := calculateMovement frames in
  let maxOffset := Nat.div (List.length frames) 4 in
  (0 < snd (correlation_at mov mov w 0))%Z →
  num_gtb (average_product mov mov w 0) num_neg_infinity = true →
  (∀ k, (- Z.of_nat maxOffset ≤ k < 0)%Z → (0 < snd (correlation_at mov mov w k))%Z →
        num_gtb (average_product mov mov w 0) (average_product mov mov w k) = true) →
  (∀ k, (0 < k ≤ Z.of_nat maxOffset)%Z → (0 < snd (correlation_at mov mov w k))%Z →
        num_gtb (average_product mov mov w k) (average_product mov mov w 0) = false) →
  bestOffset frames frames w = 0%Z
  ∧ synchronizeData frames frames w = (frames, frames).
Proof.
  intros mov maxOffset Hvalid Hfinite Hneg Hpos.
  assert (Hbest : bestOffset frames frames w = 0%Z).
  { unfold bestOffset. rewrite Nat.min_id. fold mov maxOffset.
    by rewrite (scan_selects_zero mov mov w maxOffset). }
  split; [done|].
  unfold synchronizeData. rewrite Hbest. simpl. by destruct (_ || _).
Qed.

(** With fewer than four frames only offset 0 is scanned. *)
Lemma synchronizeData_self_short (frames : list (Frame F)) (w : Z) :
  (List.length frames < 4)%nat →
  bestOffset frames frames w = 0%Z
  ∧ synchronizeData frames frames w = (frames, frames).
Proof.
  intros Hlen.
  assert (Hbest : bestOffset frames frames w = 0%Z).
  { unfold bestOffset. rewrite Nat.min_id, Nat.div_small by done. simpl.
    unfold offset_step. destruct (0 <? _)%Z; [|done]. by destruct (num_gtb _ _). }
  split; [done|].
  unfold synchronizeData. rewrite Hbest. simpl. by destruct (_ || _).
Qed.

End SelfAlignment.

(** ** The transforms on concrete frames *)

Section Evaluation.
Local Open Scope string_scope.

(** Counterexample to C1. On four frames of a motionless marker with a window
    of 2, every average product is 0, the first offset scanned with a valid
    sample (-1) is kept, and one leading frame of the second output is
    dropped. No tie is needed: on a marker that moves by 1 and then by 10 per
    frame, with a window of 1, the product at offset 1 (1 * 10) is above the
    one at offset 0 (1 * 1), and one leading frame of the first output is
    dropped. *)
Lemma synchronizeData_self_still_counterexample :
  ((2 ≤ Z.of_nat (List.length (still_sequence (F:=float))))%Z
   ∧ bestOffset (F:=float) still_sequence still_sequence 2 = (-1)%Z
   ∧ synchronizeData (F:=float) still_sequence still_sequence 2
     = (still_sequence, drop 1 still_sequence)
   ∧ ¬ (bestOffset (F:=float) still_sequence still_sequence 2 = 0%Z
        ∧ synchronizeData (F:=float) still_sequence still_sequence 2
          = (still_sequence, still_sequence)))
  ∧ ((1 ≤ Z.of_nat (List.length (speeding_sequence (F:=float))))%Z
     ∧ calculateMovement (F:=float) speeding_sequence = [1; 10; 10]%float
     ∧ bestOffset (F:=float) speeding_sequence speeding_sequence 1 = 1%Z
     ∧ synchronizeData (F:=float) speeding_sequence speeding_sequence 1
       = (drop 1 speeding_sequence, speeding_sequence)).
Proof.
  split.
  - split; [vm_compute; discriminate|].
    split; [vm_compute; reflexivity|].
    split; [vm_compute; reflexivity|].
    intros [Hbest _]. vm_compute in Hbest. discriminate.
  - split; [vm_compute; discriminate|].
    repeat split; vm_compute; reflexivity.
Qed.

(** An instance of the amended C1: a marker that moves once, window 2. *)
Lemma synchronizeData_self_dominant_witness :
  bestOffset (F:=float) one_move_sequence one_move_sequence 2 = 0%Z
  ∧ synchronizeData (F:=float) one_move_sequence one_move_sequence 2
    = (one_move_sequence, one_move_sequence).
Proof.
  apply (synchronizeData_self_dominant (F:=float) one_move_sequence 2).
  - vm_compute. reflexivity.
  - vm_compute. reflexivity.
  - intros k Hk _.
    change (Z.of_nat (Nat.div (List.length (one_move_sequence (F:=float))) 4)) with 1%Z in Hk.
    assert (k = (-1)%Z) as -> by lia.
    vm_compute. reflexivity.
  - intros k Hk _.
    change (Z.of_nat (Nat.div (List.length (one_move_sequence (F:=float))) 4)) with 1%Z in Hk.
    assert (k = 1%Z) as -> by lia.
    vm_compute. reflexivity.
Defined.

(** C2, at a failing input. With B absent the estimator synthesizes B from
    the anchor C; with B present and invisible it returns the frame as it is,
    B's invisible sample included ([fill_joint_both_present] is the general
    fact). *)
Theorem fillMissingMarkers_skips_invisible_endpoint :
  markers (fillMissingMarkers (F:=float) frame_B_absent [joint_AC 5; joint_AB 10]) !! "B"
    = Some (mkSample 10 0 0.5 true)%float
  ∧ markers (fillMissingMarkers (F:=float) frame_B_invisible [joint_AC 5; joint_AB 10]) !! "B"
    = Some (mkSample 0 0 0 false)%float
  ∧ fillMissingMarkers (F:=float) frame_B_invisible [joint_AC 5; joint_AB 10]
    = frame_B_invisible.
Proof. repeat split; vm_compute; reflexivity. Qed.

(** C3, at a failing input. When the joint A-B comes first in the topology it
    is the first joint that touches A, so it is its own anchor joint, the
    anchor marker is the absent B, and nothing is estimated; with A-C first
    the same frame gets an estimate of B ([fill_joint_head_missing_end] is
    the general fact). *)
Theorem fillMissingMarkers_joint_is_own_anchor :
  connectedJoints (F:=float) [joint_AB 10; joint_AC 5] "A" = [joint_AB 10; joint_AC 5]
  ∧ estimatePosition (F:=float) frame_B_absent [joint_AB 10; joint_AC 5] (joint_AB 10) "A"
      (sample_at 0 0 1 true) = None
  ∧ markers (fillMissingMarkers (F:=float) frame_B_absent [joint_AB 10; joint_AC 5]) !! "B"
    = None
  ∧ markers (fillMissingMarkers (F:=float) frame_B_absent [joint_AC 5; joint_AB 10]) !! "B"
    = Some (mkSample 10 0 0.5 true)%float.
Proof. repeat split; vm_compute; reflexivity. Qed.

(** C4, at a failing input. With both confidences 0 the weight sum is 0, the
    shares are [0 / 0], and one pass replaces both positions by NaN. *)
Theorem applyLengthConstraints_zero_confidence_nan :
  markers (applyLengthConstraints (F:=float) frame_AB_zero_confidence [joint_AB 10] 1) !! "A"
    = Some (mkSample nan nan 0 true)%float
  ∧ markers (applyLengthConstraints (F:=float) frame_AB_zero_confidence [joint_AB 10] 1) !! "B"
    = Some (mkSample nan nan 0 true)%float.
Proof. split; vm_compute; reflexivity. Qed.


(** Counterexample to C9: a window size of 0 given to the smoothing filter and
    a negative one given to the synchronizer are not reported; the inputs come
    back. *)
Lemma invalid_window_not_signalled_counterexample :
  applyTemporalSmoothing_outcome (F:=float) still_sequence 0 ≠ InvalidArgument
  ∧ applyTemporalSmoothing_outcome (F:=float) still_sequence 0 = Returned still_sequence
  ∧ synchronizeData_outcome (F:=float) still_sequence still_sequence (-1) ≠ InvalidArgument
  ∧ synchronizeData_outcome (F:=float) still_sequence still_sequence (-1)
    = Returned (still_sequence, still_sequence).
Proof. repeat split; (discriminate || (vm_compute; reflexivity)). Qed.

(** An instance of the amended C9. *)
Lemma nonpositive_window_returns_input_witness :
  applyTemporalSmoothing_outcome (F:=float) still_sequence (-3) = Returned still_sequence
  ∧ synchronizeData_outcome (F:=float) still_sequence one_move_sequence (-3)
    = Returned (still_sequence, one_move_sequence).
Proof.
  apply (nonpositive_window_returns_input (F:=float) still_sequence still_sequence
           one_move_sequence (-3)).
  lia.
Defined.

(** An instance of C10: two visible samples of confidence 0 in the window. *)
Lemma smoothing_needs_positive_confidence_witness :
  count (windowSums (F:=float) zero_confidence_sequence 3 0 "A") = 2%Z
  ∧ sumConfidence (windowSums (F:=float) zero_confidence_sequence 3 0 "A") = 0%float
  ∧ ∃ frame',
      applyTemporalSmoothing (F:=float) zero_confidence_sequence 3 !! 0%nat = Some frame'
      ∧ markers frame' !! "A" = markers (frame_A (F:=float) 0 1 2 0) !! "A".
Proof.
  split; [vm_compute; reflexivity|]. split; [vm_compute; reflexivity|].
  apply (smoothing_needs_positive_confidence (F:=float) zero_confidence_sequence 3 0
           (frame_A 0 1 2 0) "A").
  - reflexivity.
  - vm_compute. reflexivity.
Defined.

End Evaluation.

(** * Further properties *)

(** ** Geometry *)

Section DistanceReal.
Local Open Scope R_scope.

Lemma calculateDistance_dist_euc (p q : Point2D R) :
  calculateDistance p q = dist_euc (px q) (py q) (px p) (py p).
Proof. unfold calculateDistance, dist_euc, Rsqr. real_ops. done. Qed.

(** Over the reals [calculateDistance] is a metric on points: symmetric,
    non-negative, zero exactly between equal points, and it satisfies the
    triangle inequality. *)
Theorem calculateDistance_metric (p q r : Point2D R) :
  calculateDistance p q = calculateDistance q p
  ∧ 0 <= calculateDistance p q
  ∧ (calculateDistance p q = 0 ↔ p = q)
  ∧ calculateDistance p r <= calculateDistance p q + calculateDistance q r.
Proof.
  split; [|split; [|split]].
  - rewrite !calculateDistance_dist_euc. apply distance_symm.
  - unfold calculateDistance. real_ops. apply sqrt_pos.
  - destruct p as [a b], q as [c d]. unfold calculateDistance. real_ops. split.
    + intros Hz. apply sqrt_eq_0 in Hz.
      * assert (0 <= (c - a) * (c - a)) by apply Rle_0_sqr.
        assert (0 <= (d - b) * (d - b)) by apply Rle_0_sqr.
        assert ((c - a) * (c - a) = 0) as Hx by lra.
        assert ((d - b) * (d - b) = 0) as Hy by lra.
        apply Rmult_integral in Hx, Hy. f_equal; lra.
      * pose proof (Rle_0_sqr (c - a)). pose proof (Rle_0_sqr (d - b)).
        unfold Rsqr in *. lra.
    + intros [= -> ->]. rewrite !Rminus_diag, Rmult_0_l, Rplus_0_l. apply sqrt_0.
  - rewrite !calculateDistance_dist_euc.
    rewrite (distance_symm (px q) (py q)), (distance_symm (px r) (py r) (px q)).
    rewrite (distance_symm (px r) (py r) (px p)).
    apply triangle.
Qed.

End DistanceReal.

(** ** Joint lengths *)

Section JointLengths.
Context {F : Type} `{Number F}.

Lemma measure_joint_ids (frame : Frame F) (joint : Joint F) :
  startMarkerId (measure_joint frame joint) = startMarkerId joint
  ∧ endMarkerId (measure_joint frame joint) = endMarkerId joint
  ∧ joint_name (measure_joint frame joint) = joint_name joint.
Proof.
  unfold measure_joint.
  destruct (markers frame !! startMarkerId joint) as [s|]; [|done].
  destruct (markers frame !! endMarkerId joint) as [e|]; [|done].
  by destruct (isVisible s && isVisible e).
Qed.

Lemma measure_joint_idempotent (frame : Frame F) (joint : Joint F) :
  measure_joint frame (measure_joint frame joint) = measure_joint frame joint.
Proof.
  unfold measure_joint at 2.
  destruct (markers frame !! startMarkerId joint) as [s|] eqn:Hs;
    [|unfold measure_joint; by rewrite Hs].
  destruct (markers frame !! endMarkerId joint) as [e|] eqn:He;
    [|unfold measure_joint; by rewrite Hs, He].
  destruct (isVisible s && isVisible e) eqn:Hv;
    [|unfold measure_joint; by rewrite Hs, He, Hv].
  unfold measure_joint. simpl. by rewrite Hs, He, Hv.
Qed.

(** [initializeJointLengths] returns the joints in the same order with the
    same endpoints and names; a joint that lacks a visible endpoint in the
    frame is returned as it is; measuring again on the same frame changes
    nothing; and [calculateJointLengths] is the same function on the joints
    of a skeleton model. *)
Theorem initializeJointLengths_shape (joints : list (Joint F)) (frame : Frame F)
    (skeletonModel : SkeletonModel F) :
  List.length (initializeJointLengths joints frame) = List.length joints
  ∧ List.map startMarkerId (initializeJointLengths joints frame) = List.map startMarkerId joints
  ∧ List.map endMarkerId (initializeJointLengths joints frame) = List.map endMarkerId joints
  ∧ List.map joint_name (initializeJointLengths joints frame) = List.map joint_name joints
  ∧ (∀ i joint,
        joints !! i = Some joint →
        (∀ s e, markers frame !! startMarkerId joint = Some s →
                markers frame !! endMarkerId joint = Some e →
                isVisible s && isVisible e = false) →
        initializeJointLengths joints frame !! i = Some joint)
  ∧ initializeJointLengths (initializeJointLengths joints frame) frame
    = initializeJointLengths joints frame
  ∧ calculateJointLengths skeletonModel frame
    = initializeJointLengths (model_joints skeletonModel) frame.
Proof.
  unfold initializeJointLengths, calculateJointLengths.
  split; [apply length_map|].
  split; [rewrite List.map_map; apply map_ext; intros j; apply measure_joint_ids|].
  split; [rewrite List.map_map; apply map_ext; intros j; apply measure_joint_ids|].
  split; [rewrite List.map_map; apply map_ext; intros j; apply measure_joint_ids|].
  split; [|split; [|done]].
  - intros i joint Hi Hhidden.
    change (List.map (measure_joint frame) joints) with (measure_joint frame <$> joints).
    rewrite list_lookup_fmap, Hi. simpl. f_equal. unfold measure_joint.
    destruct (markers frame !! startMarkerId joint) as [s|]; [|done].
    destruct (markers frame !! endMarkerId joint) as [e|]; [|done].
    by rewrite (Hhidden s e).
  - rewrite List.map_map. apply map_ext. intros j. apply measure_joint_idempotent.
Qed.

End JointLengths.

(** ** Length-constraint solver *)

Section SolverInvariants.
Context {F : Type} `{Number F}.

(** The state the graph is built with, per marker. *)
Lemma built_graph_domain (frame : Frame F) (joints : list (Joint F)) (id : string) :
  is_Some (fold_left (add_connection frame) joints (init_graph frame) !! id)
  ↔ ∃ m, markers frame !! id = Some m ∧ isVisible m = true.
Proof.
  rewrite <- (fmap_is_Some node_state), built_graph_state.
  destruct (markers frame !! id) as [m|]; simpl.
  - destruct (isVisible m) eqn:Hv.
    + split; [eauto|]. intros _. by eexists.
    + split; [by intros [? ?]|]. intros (m' & [= <-] & ?). congruence.
  - split; [by intros [? ?]|]. by intros (? & ? & ?).
Qed.

(** A correction step keeps the nodes and their weights. *)
Lemma relax_joint_weight (graph : gmap string (Node F)) (joint : Joint F) (id : string) :
  weight <$> (relax_joint graph joint !! id) = weight <$> (graph !! id).
Proof.
  unfold relax_joint.
  destruct (graph !! startMarkerId joint) as [sn|] eqn:Hs; [|done].
  destruct (graph !! endMarkerId joint) as [en|] eqn:He; [|done].
  destruct (num_gtb (joint_length joint) num_zero); [|done].
  destruct (num_gtb (calculateDistance _ _) num_zero); [|done].
  rewrite !set_newPosition_lookup.
  repeat case_decide; subst; rewrite ?Hs, ?He; simpl; try done.
  all: rewrite ?set_newPosition_lookup; repeat case_decide; subst;
    rewrite ?Hs, ?He; simpl; try done; congruence.
Qed.

Lemma relax_pass_weight (joints : list (Joint F)) (graph : gmap string (Node F)) (id : string) :
  weight <$> (relax_pass joints graph !! id) = weight <$> (graph !! id).
Proof.
  unfold relax_pass. revert graph.
  induction joints as [|j joints IH]; intros graph; simpl; [done|].
  by rewrite IH, relax_joint_weight.
Qed.

Lemma relax_passes_weight (n : nat) (joints : list (Joint F)) (graph : gmap string (Node F))
    (id : string) :
  weight <$> (Nat.iter n (relax_pass joints) graph !! id) = weight <$> (graph !! id).
Proof.
  induction n as [|n IH]; simpl; [done|]. by rewrite relax_pass_weight.
Qed.

Lemma relax_joint_inert (graph : gmap string (Node F)) (joint : Joint F) (id : string) :
  inert_at id joint → relax_joint graph joint !! id = graph !! id.
Proof.
  intros Hinert. unfold relax_joint.
  destruct (graph !! startMarkerId joint) as [sn|] eqn:Hs; [|done].
  destruct (graph !! endMarkerId joint) as [en|] eqn:He; [|done].
  destruct Hinert as [Hz|[Hns Hne]]; [by rewrite Hz|].
  destruct (num_gtb (joint_length joint) num_zero); [|done].
  destruct (num_gtb (calculateDistance _ _) num_zero); [|done].
  rewrite set_newPosition_lookup, decide_False by done.
  by rewrite set_newPosition_lookup, decide_False.
Qed.

Lemma relax_pass_inert (joints : list (Joint F)) (graph : gmap string (Node F)) (id : string) :
  Forall (inert_at id) joints → relax_pass joints graph !! id = graph !! id.
Proof.
  intros Hall. unfold relax_pass. revert graph.
  induction Hall as [|j joints Hj Hall IHj]; intros g; simpl; [done|].
  by rewrite IHj, relax_joint_inert.
Qed.

Lemma relax_passes_inert (n : nat) (joints : list (Joint F)) (graph : gmap string (Node F))
    (id : string) :
  Forall (inert_at id) joints →
  Nat.iter n (relax_pass joints) graph !! id = graph !! id.
Proof.
  intros Hall. induction n as [|n IH]; simpl; [done|].
  by rewrite relax_pass_inert.
Qed.

(** A graph whose node of [id] still has the state it was built with writes
    the marker of [id] back as it was. *)
Lemma write_back_unmoved (frame : Frame F) (graph : gmap string (Node F)) (id : string) :
  node_state <$> (graph !! id)
  = markers frame !! id ≫=
      (λ m, if isVisible m then Some (position m, confidence m) else None) →
  write_back graph (markers frame) !! id = markers frame !! id.
Proof.
  intros Hst. rewrite write_back_lookup.
  destruct (graph !! id) as [node|]; [|done].
  destruct (markers frame !! id) as [m|]; simpl in *; [|done].
  destruct (isVisible m); [|done].
  injection Hst as Hpos _. by rewrite Hpos, with_position_id.
Qed.

End SolverInvariants.

Section SolverFrame.
Context {F : Type} `{Number F}.

(** Whatever the joints and the number of iterations, the solver changes
    positions only: the frame number, the timestamp and the key set are those
    of the input, every marker keeps its confidence and its visibility, and an
    invisible marker keeps its whole sample. *)
Theorem applyLengthConstraints_moves_positions_only (frame : Frame F) (joints : list (Joint F))
    (iterations : Z) (id : string) :
  frameNumber (applyLengthConstraints frame joints iterations) = frameNumber frame
  ∧ timestamp (applyLengthConstraints frame joints iterations) = timestamp frame
  ∧ dom (markers (applyLengthConstraints frame joints iterations)) = dom (markers frame)
  ∧ confidence <$> (markers (applyLengthConstraints frame joints iterations) !! id)
    = confidence <$> (markers frame !! id)
  ∧ isVisible <$> (markers (applyLengthConstraints frame joints iterations) !! id)
    = isVisible <$> (markers frame !! id)
  ∧ (∀ m, markers frame !! id = Some m → isVisible m = false →
          markers (applyLengthConstraints frame joints iterations) !! id = Some m).
Proof.
  unfold applyLengthConstraints. simpl.
  set (g0 := fold_left (add_connection frame) joints (init_graph frame)).
  set (g := Nat.iter (Z.to_nat iterations) (relax_pass joints) g0).
  assert (Hattr : ∀ k,
    (λ m, (confidence m, isVisible m)) <$> (write_back g (markers frame) !! k)
    = (λ m, (confidence m, isVisible m)) <$> (markers frame !! k)).
  { intros k. rewrite write_back_lookup. destruct (g !! k); [|done].
    by destruct (markers frame !! k). }
  split; [done|]. split; [done|]. split.
  { apply set_eq. intros k. rewrite !elem_of_dom.
    rewrite <- (fmap_is_Some (λ m, (confidence m, isVisible m))), Hattr.
    by rewrite fmap_is_Some. }
  split.
  { pose proof (Hattr id) as Hid.
    destruct (write_back g (markers frame) !! id), (markers frame !! id);
      simpl in *; congruence. }
  split.
  { pose proof (Hattr id) as Hid.
    destruct (write_back g (markers frame) !! id), (markers frame !! id);
      simpl in *; congruence. }
  intros m Hm Hinv. rewrite write_back_lookup.
  assert (Hnone : g !! id = None).
  { apply eq_None_not_Some. intros Hsome.
    apply (fmap_is_Some weight) in Hsome. unfold g in Hsome.
    rewrite relax_passes_weight, fmap_is_Some in Hsome.
    apply built_graph_domain in Hsome as (m' & Hm' & Hv). congruence. }
  by rewrite Hnone.
Qed.

(** A marker that is an endpoint of no joint of positive length is returned
    with its sample unchanged, whatever the number of iterations. *)
Theorem applyLengthConstraints_unconstrained_marker (frame : Frame F) (joints : list (Joint F))
    (iterations : Z) (id : string) :
  Forall (inert_at id) joints →
  markers (applyLengthConstraints frame joints iterations) !! id = markers frame !! id.
Proof.
  intros Hall. unfold applyLengthConstraints. simpl.
  apply write_back_unmoved.
  rewrite relax_passes_inert by done. apply built_graph_state.
Qed.

(** When no joint has a positive length the solver returns the input frame,
    whatever the number of iterations. *)
Theorem applyLengthConstraints_without_lengths (frame : Frame F) (joints : list (Joint F))
    (iterations : Z) :
  Forall (λ joint, num_gtb (joint_length joint) num_zero = false) joints →
  applyLengthConstraints frame joints iterations = frame.
Proof.
  intros Hall.
  transitivity (with_markers frame (markers frame)); [|apply with_markers_id].
  unfold applyLengthConstraints. simpl. f_equal. apply map_eq. intros id.
  apply write_back_unmoved.
  rewrite relax_passes_inert; [apply built_graph_state|].
  eapply Forall_impl; [exact Hall|]. intros j Hj. by left.
Qed.

End SolverFrame.

Section SolverRest.
Local Open Scope R_scope.

Lemma relax_measured_joint_at_rest (frame : Frame R) (graph : gmap string (Node R))
    (joint : Joint R) :
  at_rest frame graph → at_rest frame (relax_joint graph (measure_joint frame joint)).
Proof.
  intros Hrest id.
  destruct (measure_joint_ids frame joint) as (Hsid & Heid & _).
  unfold relax_joint. rewrite Hsid, Heid.
  pose proof (Hrest (startMarkerId joint)) as Hs.
  pose proof (Hrest (endMarkerId joint)) as He.
  destruct (graph !! startMarkerId joint) as [sn|] eqn:Hgs; [|apply Hrest].
  destruct (graph !! endMarkerId joint) as [en|] eqn:Hge; [|apply Hrest].
  destruct (markers frame !! startMarkerId joint) as [s|] eqn:Hfs; [|done].
  destruct (markers frame !! endMarkerId joint) as [e|] eqn:Hfe; [|done].
  simpl in Hs, He.
  destruct (isVisible s) eqn:Hvs; [|done]. destruct (isVisible e) eqn:Hve; [|done].
  injection Hs as Hps Hws. injection He as Hpe Hwe.
  assert (Hlen : joint_length (measure_joint frame joint)
                 = calculateDistance (newPosition sn) (newPosition en)).
  { unfold measure_joint. rewrite Hfs, Hfe, Hvs, Hve. simpl. by rewrite Hps, Hpe. }
  destruct (num_gtb (joint_length (measure_joint frame joint)) num_zero); [|apply Hrest].
  destruct (num_gtb (calculateDistance (newPosition sn) (newPosition en)) num_zero);
    [|apply Hrest].
  rewrite Hlen. real_ops.
  set (d := calculateDistance (newPosition sn) (newPosition en)).
  replace (mkPoint
             (px (newPosition sn)
              - (px (newPosition en) - px (newPosition sn)) * ((d - d) / d)
                * (weight en / (weight sn + weight en)) * (1 / 2))
             (py (newPosition sn)
              - (py (newPosition en) - py (newPosition sn)) * ((d - d) / d)
                * (weight en / (weight sn + weight en)) * (1 / 2)))
    with (newPosition sn)
    by (destruct (newPosition sn); simpl; f_equal; unfold Rdiv; ring).
  replace (mkPoint
             (px (newPosition en)
              + (px (newPosition en) - px (newPosition sn)) * ((d - d) / d)
                * (weight sn / (weight sn + weight en)) * (1 / 2))
             (py (newPosition en)
              + (py (newPosition en) - py (newPosition sn)) * ((d - d) / d)
                * (weight sn / (weight sn + weight en)) * (1 / 2)))
    with (newPosition en)
    by (destruct (newPosition en); simpl; f_equal; unfold Rdiv; ring).
  rewrite <- (Hrest id).
  assert (Hsame : ∀ k p (g : gmap string (Node R)) j n,
            g !! k = Some n → newPosition n = p →
            node_state <$> (set_newPosition k p g !! j) = node_state <$> (g !! j)).
  { intros k p g j n Hk Hp. rewrite set_newPosition_lookup.
    case_decide; [|done]. subst j. rewrite Hk. simpl. unfold node_state. simpl.
    by rewrite Hp. }
  destruct (decide (endMarkerId joint = startMarkerId joint)) as [Heq|Hne].
  - rewrite Heq in *. assert (en = sn) as -> by congruence.
    erewrite Hsame; [by rewrite (Hsame _ _ _ _ sn)| |].
    + rewrite set_newPosition_lookup, decide_True, Hgs by done. simpl. reflexivity.
    + done.
  - rewrite (Hsame _ _ _ _ en); [by rewrite (Hsame _ _ _ _ sn)| |done].
    by rewrite set_newPosition_lookup, decide_False.
Qed.

Lemma relax_measured_pass_at_rest (frame : Frame R) (joints : list (Joint R))
    (graph : gmap string (Node R)) :
  at_rest frame graph →
  at_rest frame (relax_pass (initializeJointLengths joints frame) graph).
Proof.
  unfold relax_pass, initializeJointLengths. revert graph.
  induction joints as [|j joints IH]; intros graph Hrest; simpl; [done|].
  apply IH. by apply relax_measured_joint_at_rest.
Qed.

(** A frame is a rest pose for the joint lengths measured on it: with the
    joints returned by [initializeJointLengths] for the same frame, the
    solver returns the frame, whatever the number of iterations.  (Positive
    confidences of the visible markers keep the weight shares defined.) *)
Theorem applyLengthConstraints_measured_rest_pose (frame : Frame R) (joints : list (Joint R))
    (iterations : Z) :
  map_Forall (λ _ m, isVisible m = true → 0 < confidence m) (markers frame) →
  applyLengthConstraints frame (initializeJointLengths joints frame) iterations = frame.
Proof.
  intros _.
  transitivity (with_markers frame (markers frame)); [|apply with_markers_id].
  unfold applyLengthConstraints. simpl. f_equal. apply map_eq. intros id.
  apply write_back_unmoved.
  generalize (Z.to_nat iterations). intros n.
  assert (Hrest : at_rest frame
            (Nat.iter n (relax_pass (initializeJointLengths joints frame))
               (fold_left (add_connection frame) (initializeJointLengths joints frame)
                  (init_graph frame)))); [|apply Hrest].
  induction n as [|n IH]; simpl.
  - intros k. apply built_graph_state.
  - by apply relax_measured_pass_at_rest.
Qed.

End SolverRest.

(** ** Source fusion, continued *)

Section FusionFrame.
Context {F : Type} `{Number F}.

Lemma blended_sample_visibility (markerlessFrame : Frame F) (blendRatio : F) (id : string)
    (marker : MarkerSample F) :
  isVisible (blended_sample markerlessFrame blendRatio id marker) = isVisible marker.
Proof.
  unfold blended_sample.
  destruct (markers markerlessFrame !! id) as [mm|]; [|done].
  destruct (isVisible marker && isVisible mm); [|done].
  by destruct (num_gtb _ _).
Qed.

(** The fusion returns the primary frame's frame number, timestamp and key
    set, keeps the visibility of every marker, and returns the primary's
    sample for every marker that is not visible in both frames; markers that
    only the secondary frame has are not added. *)
Theorem blend_keeps_primary_shape (markerFrame markerlessFrame : Frame F) (blendRatio : F)
    (id : string) :
  frameNumber (blendMarkerAndMarkerlessData markerFrame markerlessFrame blendRatio)
    = frameNumber markerFrame
  ∧ timestamp (blendMarkerAndMarkerlessData markerFrame markerlessFrame blendRatio)
    = timestamp markerFrame
  ∧ dom (markers (blendMarkerAndMarkerlessData markerFrame markerlessFrame blendRatio))
    = dom (markers markerFrame)
  ∧ isVisible <$> (markers (blendMarkerAndMarkerlessData markerFrame markerlessFrame blendRatio)
                     !! id)
    = isVisible <$> (markers markerFrame !! id)
  ∧ (∀ m, markers markerFrame !! id = Some m →
          (isVisible m = false
           ∨ markers markerlessFrame !! id = None
           ∨ ∃ mm, markers markerlessFrame !! id = Some mm ∧ isVisible mm = false) →
          markers (blendMarkerAndMarkerlessData markerFrame markerlessFrame blendRatio) !! id
          = Some m).
Proof.
  split; [done|]. split; [done|]. split; [|split].
  - apply set_eq. intros k. rewrite !elem_of_dom, blend_lookup. apply fmap_is_Some.
  - rewrite blend_lookup. destruct (markers markerFrame !! id) as [m|]; simpl; [|done].
    by rewrite blended_sample_visibility.
  - intros m Hm Hcase. rewrite blend_lookup, Hm. simpl. f_equal.
    unfold blended_sample.
    destruct Hcase as [Hv|[Hnone|(mm & Hmm & Hv)]].
    + destruct (markers markerlessFrame !! id); [|done]. by rewrite Hv.
    + by rewrite Hnone.
    + by rewrite Hmm, Hv, andb_false_r.
Qed.

End FusionFrame.

Section FusionRealMore.
Local Open Scope R_scope.

(** With [blendRatio = 1] a marker visible in both frames takes the secondary
    frame's position whenever the secondary confidence is positive, and its
    confidence becomes the larger of the two. *)
Theorem blend_ratio_one_takes_secondary (primary secondary : Frame R) (id : string)
    (m s : MarkerSample R) :
  markers primary !! id = Some m →
  markers secondary !! id = Some s →
  isVisible m = true →
  isVisible s = true →
  0 < confidence s →
  markers (blendMarkerAndMarkerlessData primary secondary 1) !! id
  = Some (mkSample (marker_x s) (marker_y s) (Rmax (confidence m) (confidence s)) true).
Proof.
  intros Hm Hs Hvm Hvs Hc. rewrite blend_lookup, Hm. simpl. f_equal.
  unfold blended_sample. rewrite Hs, Hvm, Hvs. simpl. real_ops.
  replace (Rltb 0 (confidence m * (1 - 1) + confidence s * 1)) with true
    by (symmetry; apply Rltb_true; lra).
  f_equal; field; lra.
Qed.

(** For a blend ratio in [0, 1] and non-negative confidences each fused
    coordinate lies between the primary's and the secondary's coordinate, and
    the confidence does not drop below the primary's. *)
Theorem blend_between_sources (primary secondary : Frame R) (blendRatio : R) (id : string)
    (m s : MarkerSample R) :
  markers primary !! id = Some m →
  markers secondary !! id = Some s →
  0 <= blendRatio <= 1 →
  0 <= confidence m →
  0 <= confidence s →
  ∃ m',
    markers (blendMarkerAndMarkerlessData primary secondary blendRatio) !! id = Some m'
    ∧ Rmin (marker_x m) (marker_x s) <= marker_x m' <= Rmax (marker_x m) (marker_x s)
    ∧ Rmin (marker_y m) (marker_y s) <= marker_y m' <= Rmax (marker_y m) (marker_y s)
    ∧ confidence m <= confidence m'.
Proof.
  intros Hm Hs Hr Hcm Hcs. rewrite blend_lookup, Hm. simpl. eexists. split; [done|].
  assert (Hself : ∀ a b, Rmin a b <= a <= Rmax a b).
  { intros a b. split; [apply Rmin_l|apply Rmax_l]. }
  unfold blended_sample. rewrite Hs.
  destruct (isVisible m && isVisible s); [|by repeat split; try apply Hself; lra].
  real_ops.
  set (w1 := confidence m * (1 - blendRatio)).
  set (w2 := confidence s * blendRatio).
  destruct (Rltb 0 (w1 + w2)) eqn:Hw; [|by repeat split; try apply Hself; lra].
  apply Rltb_true in Hw. simpl.
  assert (Hw1 : 0 <= w1) by (unfold w1; apply Rmult_le_pos; lra).
  assert (Hw2 : 0 <= w2) by (unfold w2; apply Rmult_le_pos; lra).
  assert (Hconvex : ∀ a b, Rmin a b <= (a * w1 + b * w2) / (w1 + w2) <= Rmax a b).
  { intros a b.
    pose proof (Rmin_l a b). pose proof (Rmin_r a b).
    pose proof (Rmax_l a b). pose proof (Rmax_r a b).
    assert (Hq : (a * w1 + b * w2) / (w1 + w2) * (w1 + w2) = a * w1 + b * w2)
      by (field; lra).
    set (q := (a * w1 + b * w2) / (w1 + w2)) in *.
    split; apply Rmult_le_reg_r with (w1 + w2); try done; rewrite ?Hq; nra. }
  split; [apply Hconvex|]. split; [apply Hconvex|]. apply Rmax_l.
Qed.

End FusionRealMore.

(** ** Missing-marker estimator, continued *)

Section EstimatorFrame.
Context {F : Type} `{Number F}.

Lemma fill_joint_filled_from (frame : Frame F) (joints : list (Joint F)) (st : fill_state)
    (joint : Joint F) (id : string) :
  joint ∈ joints →
  filled_from frame joints (fst st) id →
  filled_from frame joints (fst (fill_joint frame joints st joint)) id.
Proof.
  intros Hin Hinv. unfold fill_joint.
  destruct (markers frame !! startMarkerId joint) as [s|] eqn:Hs;
    destruct (markers frame !! endMarkerId joint) as [e|] eqn:He; try done.
  - destruct (isVisible s && num_gtb (joint_length joint) num_zero) eqn:Hguard; [|done].
    apply andb_prop in Hguard as [Hv Hlen].
    destruct (estimatePosition frame joints joint (startMarkerId joint) s) as [p|] eqn:Hest;
      [|done].
    simpl. unfold filled_from in *.
    destruct (decide (id = endMarkerId joint)) as [->|Hne].
    + rewrite He. right. exists joint, (startMarkerId joint), s, p.
      rewrite lookup_insert_eq. repeat split; try done. by left.
    + rewrite lookup_insert_ne by done. exact Hinv.
  - destruct (isVisible e && num_gtb (joint_length joint) num_zero) eqn:Hguard; [|done].
    apply andb_prop in Hguard as [Hv Hlen].
    destruct (estimatePosition frame joints joint (endMarkerId joint) e) as [p|] eqn:Hest;
      [|done].
    simpl. unfold filled_from in *.
    destruct (decide (id = startMarkerId joint)) as [->|Hne].
    + rewrite Hs. right. exists joint, (endMarkerId joint), e, p.
      rewrite lookup_insert_eq. repeat split; try done. by right.
    + rewrite lookup_insert_ne by done. exact Hinv.
Qed.

Lemma fill_joints_filled_from (frame : Frame F) (joints todo : list (Joint F)) (st : fill_state)
    (id : string) :
  (∀ joint, joint ∈ todo → joint ∈ joints) →
  filled_from frame joints (fst st) id →
  filled_from frame joints (fst (fold_left (fill_joint frame joints) todo st)) id.
Proof.
  revert st. induction todo as [|j todo IH]; intros st Hsub Hinv; simpl; [done|].
  apply IH; [intros j' Hj'; apply Hsub; by right|].
  apply fill_joint_filled_from; [apply Hsub; by left|done].
Qed.

(** The estimator only adds markers.  The frame number and the timestamp are
    the input's; a key of the input frame keeps its sample, visible or not;
    and a key the input frame lacks is either still missing or holds a
    sample of confidence 0.5, visible, placed by [estimatePosition] for a
    joint of positive length that ends there and whose other end is visible
    in the input frame. *)
Theorem fillMissingMarkers_only_adds (frame : Frame F) (joints : list (Joint F)) (id : string) :
  frameNumber (fillMissingMarkers frame joints) = frameNumber frame
  ∧ timestamp (fillMissingMarkers frame joints) = timestamp frame
  ∧ filled_from frame joints (markers (fillMissingMarkers frame joints)) id.
Proof.
  split; [done|]. split; [done|].
  unfold fillMissingMarkers. simpl.
  apply (fill_joints_filled_from frame joints joints (markers frame, ∅)); [done|].
  unfold filled_from. simpl. destruct (markers frame !! id); [done|by left].
Qed.

End EstimatorFrame.

Section EstimatorReal.
Local Open Scope R_scope.

(** Over the reals an estimated position lies at distance [|length|] of the
    joint from the known endpoint (the joint's own length, not the anchor's
    distance). *)
Theorem estimatePosition_at_joint_length (frame : Frame R) (joints : list (Joint R))
    (joint : Joint R) (knownId : string) (known : MarkerSample R) (p : Point2D R) :
  estimatePosition frame joints joint knownId known = Some p →
  calculateDistance (position known) p = Rabs (joint_length joint).
Proof.
  unfold estimatePosition.
  destruct (connectedJoints joints knownId) as [|cj rest]; [done|].
  destruct (markers frame !! _) as [anchor|]; [|done].
  destruct (isVisible anchor); [|done]. real_ops.
  set (vx := marker_x anchor - marker_x known).
  set (vy := marker_y anchor - marker_y known).
  destruct (Rltb 0 (sqrt (vx * vx + vy * vy))) eqn:Hmag; [|done].
  apply Rltb_true in Hmag. intros [= <-].
  unfold calculateDistance, position. real_ops.
  set (mag := sqrt (vx * vx + vy * vy)) in *.
  assert (Hsq : mag * mag = vx * vx + vy * vy).
  { apply sqrt_sqrt. pose proof (Rle_0_sqr vx). pose proof (Rle_0_sqr vy).
    unfold Rsqr in *. lra. }
  set (L := joint_length joint).
  replace ((marker_x known + vx / mag * L - marker_x known)
           * (marker_x known + vx / mag * L - marker_x known)
           + (marker_y known + vy / mag * L - marker_y known)
             * (marker_y known + vy / mag * L - marker_y known))
    with (Rsqr L).
  - apply sqrt_Rsqr_abs.
  - unfold Rsqr.
    replace (L * L) with (L * L * ((vx * vx + vy * vy) / (mag * mag)))
      by (rewrite <- Hsq; field; lra).
    field. lra.
Qed.

End EstimatorReal.

(** ** Temporal smoothing, continued *)

Section SmoothingFrame.
Context {F : Type} `{Number F}.

Lemma smooth_entry_attributes (frames : list (Frame F)) (windowSize : Z) (i : nat)
    (frame : Frame F) (id : string) :
  (λ m, (confidence m, isVisible m)) <$> (markers (smooth_frame frames windowSize i frame) !! id)
  = (λ m, (confidence m, isVisible m)) <$> (markers frame !! id).
Proof.
  rewrite smooth_frame_lookup.
  destruct (markers frame !! id) as [marker|] eqn:Hid; [|done].
  unfold smooth_entry. simpl.
  destruct (_ && _); [by rewrite lookup_insert_eq|by rewrite Hid].
Qed.

(** Smoothing returns as many frames as it is given, and frame [i] of the
    output has the frame number, the timestamp and the key set of frame [i]
    of the input, with the confidence and the visibility of every marker
    unchanged: only positions are smoothed. *)
Theorem applyTemporalSmoothing_smooths_positions_only (frames : list (Frame F)) (windowSize : Z)
    (i : nat) (id : string) :
  List.length (applyTemporalSmoothing frames windowSize) = List.length frames
  ∧ frameNumber <$> (applyTemporalSmoothing frames windowSize !! i)
    = frameNumber <$> (frames !! i)
  ∧ timestamp <$> (applyTemporalSmoothing frames windowSize !! i)
    = timestamp <$> (frames !! i)
  ∧ (λ f, dom (markers f)) <$> (applyTemporalSmoothing frames windowSize !! i)
    = (λ f, dom (markers f)) <$> (frames !! i)
  ∧ (applyTemporalSmoothing frames windowSize !! i) ≫=
      (λ f, (λ m, (confidence m, isVisible m)) <$> (markers f !! id))
    = (frames !! i) ≫=
      (λ f, (λ m, (confidence m, isVisible m)) <$> (markers f !! id)).
Proof.
  unfold applyTemporalSmoothing. destruct (_ || _); [done|].
  rewrite length_imap, list_lookup_imap.
  destruct (frames !! i) as [frame|]; simpl; [|done].
  split; [done|]. split; [done|]. split; [done|]. split.
  - f_equal. apply set_eq. intros k. rewrite !elem_of_dom.
    rewrite <- (fmap_is_Some (λ m, (confidence m, isVisible m))).
    change (markers (with_markers frame ?ms)) with ms.
    pose proof (smooth_entry_attributes frames windowSize i frame k) as Hk.
    unfold smooth_frame in Hk. simpl in Hk. rewrite Hk. by rewrite fmap_is_Some.
  - apply smooth_entry_attributes.
Qed.

End SmoothingFrame.

Section SmoothingReal.
Local Open Scope R_scope.



End SmoothingReal.

(** ** Temporal synchronizer, continued *)

Section SynchronizerRange.
Context {F : Type} `{Number F} `{NumberInf F}.

Lemma scan_offsets_range (movA movB : list F) (w : Z) (l : list Z) (best : Z * F) :
  fst (fold_left (offset_step movA movB w) l best) = fst best
  ∨ fst (fold_left (offset_step movA movB w) l best) ∈ l.
Proof.
  revert best. induction l as [|k l IH]; intros best; simpl; [by left|].
  destruct (IH (offset_step movA movB w best k)) as [Heq|Hin].
  - rewrite Heq. unfold offset_step.
    destruct (0 <? _)%Z; [|by left].
    destruct (num_gtb _ _); [right; by left|by left].
  - right. by right.
Qed.

Lemma bestOffset_range (markerFrames markerlessFrames : list (Frame F)) (w : Z) :
  (- Z.of_nat (Nat.min (Nat.div (List.length markerFrames) 4)
                       (Nat.div (List.length markerlessFrames) 4))
   ≤ bestOffset markerFrames markerlessFrames w
   ≤ Z.of_nat (Nat.min (Nat.div (List.length markerFrames) 4)
                       (Nat.div (List.length markerlessFrames) 4)))%Z.
Proof.
  unfold bestOffset. cbv zeta.
  set (maxOffset := Nat.min (Nat.div (List.length markerFrames) 4)
                            (Nat.div (List.length markerlessFrames) 4)).
  destruct (scan_offsets_range (calculateMovement markerFrames)
              (calculateMovement markerlessFrames) w (offsets maxOffset)
              (0%Z, num_neg_infinity)) as [Heq|Hin].
  - rewrite Heq. simpl. lia.
  - unfold offsets in Hin at 2.
    apply list_elem_of_In, in_map_iff in Hin as (n & Hn & Hseq).
    apply in_seq in Hseq. lia.
Qed.

(** The synchronizer only drops leading frames, from one of the two
    sequences, and never more than a quarter of the shorter one: the result
    is [(drop k markerFrames, markerlessFrames)] or
    [(markerFrames, drop k markerlessFrames)] for some
    [k ≤ min (|markerFrames| / 4) (|markerlessFrames| / 4)]. *)
Theorem synchronizeData_drops_leading_frames (markerFrames markerlessFrames : list (Frame F))
    (syncWindowSize : Z) :
  ∃ k : nat,
    (k ≤ Nat.min (Nat.div (List.length markerFrames) 4)
                 (Nat.div (List.length markerlessFrames) 4))%nat
    ∧ (synchronizeData markerFrames markerlessFrames syncWindowSize
         = (drop k markerFrames, markerlessFrames)
       ∨ synchronizeData markerFrames markerlessFrames syncWindowSize
         = (markerFrames, drop k markerlessFrames)).
Proof.
  unfold synchronizeData.
  destruct (_ || _); [exists 0%nat; split; [lia|by left]|].
  pose proof (bestOffset_range markerFrames markerlessFrames syncWindowSize) as Hrange.
  destruct (0 <? bestOffset markerFrames markerlessFrames syncWindowSize)%Z eqn:Hpos.
  - exists (Z.to_nat (bestOffset markerFrames markerlessFrames syncWindowSize)).
    split; [lia|by left].
  - destruct (bestOffset markerFrames markerlessFrames syncWindowSize <? 0)%Z eqn:Hneg.
    + exists (Z.to_nat (- bestOffset markerFrames markerlessFrames syncWindowSize)).
      split; [lia|by right].
    + exists 0%nat. split; [lia|by left].
Qed.

Lemma calculateMovement_lookup (frames : list (Frame F)) (i : nat) :
  calculateMovement frames !! i
  = match frames !! i, frames !! S i with
    | Some prev, Some current => Some (frame_movement prev current)
    | _, _ => None
    end.
Proof.
  revert i. induction frames as [|prev rest IH]; intros i; [done|].
  destruct rest as [|current rest].
  - simpl. destruct i; [done|]. by destruct i.
  - change (calculateMovement (prev :: current :: rest))
      with (frame_movement prev current :: calculateMovement (current :: rest)).
    destruct i as [|i]; [done|]. simpl. apply IH.
Qed.

End SynchronizerRange.

Section MovementReal.
Local Open Scope R_scope.

Lemma movement_sums_nonneg (prev current : Frame R) :
  0 <= fst (map_fold (movement_entry prev) (num_zero, 0%Z) (markers current))
  ∧ (0 ≤ snd (map_fold (movement_entry prev) (num_zero, 0%Z) (markers current)))%Z.
Proof.
  apply (map_fold_weak_ind (λ acc _, 0 <= fst acc ∧ (0 ≤ snd acc)%Z)).
  - simpl. real_ops. split; [lra|lia].
  - intros id marker m acc _ [Hsum Hcount]. unfold movement_entry.
    destruct (markers prev !! id) as [pm|]; [|done].
    destruct (isVisible marker && isVisible pm); [|done].
    simpl. real_ops. split; [|lia].
    apply Rplus_le_le_0_compat; [done|apply sqrt_pos].
Qed.

Lemma frame_movement_nonneg (prev current : Frame R) : 0 <= frame_movement prev current.
Proof.
  unfold frame_movement. destruct (movement_sums_nonneg prev current) as [Hsum Hcount].
  destruct (0 <? _)%Z eqn:Hpos; real_ops; [|lra].
  apply Z.ltb_lt in Hpos. apply Rmult_le_pos; [done|].
  apply Rlt_le, Rinv_0_lt_compat, IZR_lt. done.
Qed.

Lemma movement_sum_still (prev : Frame R) (ms : gmap string (MarkerSample R)) :
  (∀ id m pm, ms !! id = Some m → markers prev !! id = Some pm →
              isVisible m = true → isVisible pm = true → position m = position pm) →
  fst (map_fold (movement_entry prev) (num_zero, 0%Z) ms) = 0.
Proof.
  apply (map_fold_weak_ind
           (λ acc ms', (∀ id m pm, ms' !! id = Some m → markers prev !! id = Some pm →
                                   isVisible m = true → isVisible pm = true →
                                   position m = position pm) → fst acc = 0)).
  - done.
  - intros id marker ms' acc Hfresh IH Hstill.
    assert (Hacc : fst acc = 0).
    { apply IH. intros k m pm Hk. apply Hstill.
      rewrite lookup_insert_ne; [done|]. intros ->. congruence. }
    unfold movement_entry.
    destruct (markers prev !! id) as [pm|] eqn:Hpm; [|done].
    destruct (isVisible marker) eqn:Hv, (isVisible pm) eqn:Hvp; cbn [andb]; try done.
    cbn [fst]. rewrite Hacc, (Hstill id marker pm); [|by rewrite lookup_insert_eq|done..].
    unfold calculateDistance. real_ops.
    rewrite !Rminus_diag, Rmult_0_l, !Rplus_0_l. apply sqrt_0.
Qed.

(** The motion series has one entry per pair of adjacent frames; over the
    reals every entry is non-negative, and the entry of a pair of frames in
    which every marker visible in both has the same position is 0. *)
Theorem calculateMovement_series (frames : list (Frame R)) :
  List.length (calculateMovement frames) = (List.length frames - 1)%nat
  ∧ (∀ i, calculateMovement frames !! i
          = match frames !! i, frames !! S i with
            | Some prev, Some current => Some (frame_movement prev current)
            | _, _ => None
            end)
  ∧ Forall (λ v, 0 <= v) (calculateMovement frames)
  ∧ (∀ prev current,
        (∀ id m pm, markers current !! id = Some m → markers prev !! id = Some pm →
                    isVisible m = true → isVisible pm = true → position m = position pm) →
        frame_movement prev current = 0).
Proof.
  split; [|split; [apply calculateMovement_lookup|split]].
  - induction frames as [|prev rest IH]; [done|].
    destruct rest as [|current rest]; [done|].
    change (calculateMovement (prev :: current :: rest))
      with (frame_movement prev current :: calculateMovement (current :: rest)).
    simpl in *. lia.
  - apply Forall_lookup. intros i v. rewrite calculateMovement_lookup.
    destruct (frames !! i); [|done]. destruct (frames !! S i); [|done].
    intros [= <-]. apply frame_movement_nonneg.
  - intros prev current Hstill. unfold frame_movement.
    rewrite (movement_sum_still prev (markers current) Hstill).
    destruct (0 <? _)%Z; real_ops; [|done]. unfold Rdiv. ring.
Qed.

End MovementReal.

(** ** Pose converters *)

Section Converters.
Context {F : Type} `{Number F}.

Lemma convert_keypoints_origin (markerMapping : gmap string string) (all todo : list (Keypoint F))
    (ms : gmap string (MarkerSample F)) :
  (∀ kp, kp ∈ todo → kp ∈ all) →
  (∀ id m, ms !! id = Some m →
           id ≠ ""%string
           ∧ ∃ kp, kp ∈ all ∧ markerMapping !! keypoint_name kp = Some id
                   ∧ m = keypoint_sample kp) →
  ∀ id m, fold_left (convert_keypoint markerMapping) todo ms !! id = Some m →
          id ≠ ""%string
          ∧ ∃ kp, kp ∈ all ∧ markerMapping !! keypoint_name kp = Some id
                  ∧ m = keypoint_sample kp.
Proof.
  revert ms. induction todo as [|kp todo IH]; intros ms Hsub Hinv; simpl; [done|].
  apply IH; [intros kp' Hkp'; apply Hsub; by right|].
  intros id m. unfold convert_keypoint.
  destruct (markerMapping !! keypoint_name kp) as [markerId|] eqn:Hmap; [|apply Hinv].
  destruct (String.eqb markerId "") eqn:Hempty; [apply Hinv|].
  apply String.eqb_neq in Hempty.
  rewrite lookup_insert. case_decide; [|apply Hinv].
  subst id. intros [= <-]. split; [done|].
  exists kp. split; [apply Hsub; by left|done].
Qed.

(** Every marker returned by [convertTFJSPoseToMarkers] comes from a keypoint
    of the pose whose name the mapping sends to that marker's non-empty
    identifier: it has the keypoint's coordinates, the keypoint's score (0
    for a missing, zero or NaN score) as confidence, and it is visible
    exactly when that confidence is above 0.2.  A null pose and a pose
    without keypoints give no marker. *)
Theorem convertTFJSPoseToMarkers_origin (pose : option (Pose F))
    (markerMapping : gmap string string) (id : string) (m : MarkerSample F) :
  convertTFJSPoseToMarkers pose markerMapping !! id = Some m →
  id ≠ ""%string
  ∧ isVisible m = num_gtb (confidence m) visibility_threshold
  ∧ ∃ kps kp,
      pose ≫= keypoints = Some kps
      ∧ kp ∈ kps
      ∧ markerMapping !! keypoint_name kp = Some id
      ∧ m = keypoint_sample kp.
Proof.
  unfold convertTFJSPoseToMarkers.
  destruct pose as [p|]; [|by rewrite lookup_empty].
  destruct (keypoints p) as [kps|] eqn:Hkps; [|by rewrite lookup_empty].
  intros Hm.
  destruct (convert_keypoints_origin markerMapping kps kps ∅) with (id := id) (m := m)
    as (Hne & kp & Hin & Hmap & ->); [done| |done|].
  { intros ? ?. by rewrite lookup_empty. }
  split; [done|]. split; [done|]. exists kps, kp. by rewrite <- Hkps.
Qed.

Lemma convert_openpose_origin (markerMapping : gmap string string) (values : list F)
    (todo : list nat) (ms : gmap string (OpenPoseSample F)) :
  (∀ id s, ms !! id = Some s →
           id ≠ ""%string
           ∧ ∃ i x, markerMapping !! ("openpose_kpt_" +:+ pretty i) = Some id
                    ∧ values !! (i * 3)%nat = Some x
                    ∧ s = mkOpenPoseSample x (values !! (i * 3 + 1)%nat)
                            (values !! (i * 3 + 2)%nat)
                            (above_threshold (values !! (i * 3 + 2)%nat))) →
  ∀ id s, fold_left (convert_openpose_keypoint markerMapping values) todo ms !! id = Some s →
          id ≠ ""%string
          ∧ ∃ i x, markerMapping !! ("openpose_kpt_" +:+ pretty i) = Some id
                   ∧ values !! (i * 3)%nat = Some x
                   ∧ s = mkOpenPoseSample x (values !! (i * 3 + 1)%nat)
                           (values !! (i * 3 + 2)%nat)
                           (above_threshold (values !! (i * 3 + 2)%nat)).
Proof.
  revert ms. induction todo as [|i todo IH]; intros ms Hinv; simpl; [done|].
  apply IH. intros id s. unfold convert_openpose_keypoint.
  destruct (values !! (i * 3)%nat) as [x|] eqn:Hx; [|apply Hinv].
  destruct (markerMapping !! _) as [markerId|] eqn:Hmap; [|apply Hinv].
  destruct (String.eqb markerId "") eqn:Hempty; [apply Hinv|].
  apply String.eqb_neq in Hempty.
  rewrite lookup_insert. case_decide; [|apply Hinv].
  subst id. intros [= <-]. split; [done|]. by exists i, x.
Qed.

(** Every marker returned by [convertOpenPoseToMarkers] comes from a triple
    of the first person's flat keypoint array whose index the mapping sends
    to that marker's non-empty identifier; it is visible exactly when its
    confidence is defined and above 0.2.  A trailing incomplete triple gives
    a marker whose [y] or confidence is undefined; when the array length is
    a multiple of 3 every field is defined. *)
Theorem convertOpenPoseToMarkers_origin (openPoseData : option (OpenPoseData F))
    (markerMapping : gmap string string) (id : string) (s : OpenPoseSample F) :
  convertOpenPoseToMarkers openPoseData markerMapping !! id = Some s →
  id ≠ ""%string
  ∧ openpose_isVisible s = above_threshold (openpose_confidence s)
  ∧ ∃ person rest values i,
      openPoseData ≫= people = Some (person :: rest)
      ∧ pose_keypoints_2d person = Some values
      ∧ markerMapping !! ("openpose_kpt_" +:+ pretty i) = Some id
      ∧ values !! (i * 3)%nat = Some (openpose_x s)
      ∧ openpose_y s = values !! (i * 3 + 1)%nat
      ∧ openpose_confidence s = values !! (i * 3 + 2)%nat
      ∧ (List.length values `mod` 3 = 0 →
         is_Some (openpose_y s) ∧ is_Some (openpose_confidence s)).
Proof.
  unfold convertOpenPoseToMarkers.
  destruct openPoseData as [data|]; [|by rewrite lookup_empty].
  destruct (people data) as [[|person rest]|] eqn:Hpeople; try by rewrite lookup_empty.
  destruct (pose_keypoints_2d person) as [values|] eqn:Hvalues; [|by rewrite lookup_empty].
  intros Hs.
  destruct (convert_openpose_origin markerMapping values (openpose_indices values) ∅)
    with (id := id) (s := s) as (Hne & i & x & Hmap & Hx & ->); [|done|].
  { intros ? ?. by rewrite lookup_empty. }
  split; [done|]. split; [done|].
  exists person, rest, values, i.
  change (Some data ≫= people) with (people data). rewrite Hpeople. cbn [openpose_x
    openpose_y openpose_confidence].
  repeat (split; [done|]).
  intros Hmod. apply lookup_lt_Some in Hx.
  assert (i * 3 + 2 < List.length values)%nat.
  { apply Nat.Div0.mod_divides in Hmod as [q Hq]. lia. }
  split; apply lookup_lt_is_Some; lia.
Qed.

End Converters.

(** ** Projection *)

Section Projection.
Context {F : Type} `{Number F}.

(** [projectMarkersTo2D] projects marker by marker. *)
Lemma projectMarkersTo2D_lookup (markers3D : gmap string (Point3D F))
    (projectionMatrix : Matrix34 F) (id : string) :
  projectMarkersTo2D markers3D projectionMatrix !! id
  = project_point projectionMatrix <$> (markers3D !! id).
Proof.
  unfold projectMarkersTo2D.
  rewrite (map_fold_pointwise _ (λ _ position _, Some (project_point projectionMatrix position))).
  - destruct (markers3D !! id); [done|apply lookup_empty].
  - intros k v acc j. rewrite lookup_insert.
    destruct (decide (k = j)), (decide (j = k)); congruence.
Qed.

End Projection.

Section ProjectionReal.
Local Open Scope R_scope.

(** The projection keeps the key set; over the reals, with the last row
    (0, 0, 0, 1) it is the affine map of the first two rows, and multiplying
    the whole matrix by a non-zero factor does not change the image of a
    point whose homogeneous coordinate is not 0. *)
Theorem projectMarkersTo2D_homogeneous (markers3D : gmap string (Point3D R))
    (projectionMatrix : Matrix34 R) (id : string) :
  dom (projectMarkersTo2D markers3D projectionMatrix) = dom markers3D
  ∧ (∀ row0 row1 p,
        projectionMatrix = (row0, row1, (0, 0, 0, 1)) →
        markers3D !! id = Some p →
        let '(m00, m01, m02, m03) := row0 in
        let '(m10, m11, m12, m13) := row1 in
        projectMarkersTo2D markers3D projectionMatrix !! id
        = Some (mkPoint (m00 * p3x p + m01 * p3y p + m02 * p3z p + m03)
                        (m10 * p3x p + m11 * p3y p + m12 * p3z p + m13)))
  ∧ (∀ k p,
        k ≠ 0 →
        markers3D !! id = Some p →
        (let '(_, _, (m20, m21, m22, m23)) := projectionMatrix in
         m20 * p3x p + m21 * p3y p + m22 * p3z p + m23 ≠ 0) →
        projectMarkersTo2D markers3D (scale_matrix k projectionMatrix) !! id
        = projectMarkersTo2D markers3D projectionMatrix !! id).
Proof.
  split; [|split].
  - apply set_eq. intros k. rewrite !elem_of_dom, projectMarkersTo2D_lookup.
    apply fmap_is_Some.
  - intros [[[m00 m01] m02] m03] [[[m10 m11] m12] m13] p -> Hp.
    rewrite projectMarkersTo2D_lookup, Hp. simpl. real_ops. f_equal. f_equal; field.
  - intros k p Hk Hp Hw. rewrite !projectMarkersTo2D_lookup, Hp. simpl. f_equal.
    destruct projectionMatrix as [[[[[m00 m01] m02] m03] [[[m10 m11] m12] m13]]
                                  [[[m20 m21] m22] m23]].
    simpl in *. real_ops.
    assert (Hkw : k * m20 * p3x p + k * m21 * p3y p + k * m22 * p3z p + k * m23 ≠ 0).
    { replace (k * m20 * p3x p + k * m21 * p3y p + k * m22 * p3z p + k * m23)
        with (k * (m20 * p3x p + m21 * p3y p + m22 * p3z p + m23)) by ring.
      by apply Rmult_integral_contrapositive_currified. }
    f_equal; field; by split.
Qed.

End ProjectionReal.

(** ** Composition of solver calls *)

Section SolverComposition.
Context {F : Type} `{Number F}.

Lemma set_newPosition_state (id : string) (p : Point2D F) (graph : gmap string (Node F))
    (j : string) :
  node_state <$> (set_newPosition id p graph !! j)
  = if decide (j = id)
    then (λ st, (p, snd st)) <$> (node_state <$> (graph !! id))
    else node_state <$> (graph !! j).
Proof.
  rewrite set_newPosition_lookup. case_decide; [|done].
  by destruct (graph !! id).
Qed.

Lemma set_newPosition_same_state (id : string) (p : Point2D F) (g1 g2 : gmap string (Node F)) :
  same_state g1 g2 → same_state (set_newPosition id p g1) (set_newPosition id p g2).
Proof.
  intros Hsame j. rewrite !set_newPosition_state.
  case_decide; [by rewrite (Hsame id)|apply Hsame].
Qed.

Lemma relax_joint_same_state (g1 g2 : gmap string (Node F)) (joint : Joint F) :
  same_state g1 g2 → same_state (relax_joint g1 joint) (relax_joint g2 joint).
Proof.
  intros Hsame. unfold relax_joint.
  pose proof (Hsame (startMarkerId joint)) as Hs.
  pose proof (Hsame (endMarkerId joint)) as He.
  destruct (g1 !! startMarkerId joint) as [s1|], (g2 !! startMarkerId joint) as [s2|];
    try done.
  destruct (g1 !! endMarkerId joint) as [e1|], (g2 !! endMarkerId joint) as [e2|];
    try done.
  injection Hs as Hsp Hsw. injection He as Hep Hew.
  rewrite Hsp, Hep, Hsw, Hew.
  destruct (num_gtb (joint_length joint) num_zero); [|done].
  destruct (num_gtb (calculateDistance _ _) num_zero); [|done].
  by do 2 apply set_newPosition_same_state.
Qed.

Lemma relax_passes_same_state (n : nat) (joints : list (Joint F))
    (g1 g2 : gmap string (Node F)) :
  same_state g1 g2 →
  same_state (Nat.iter n (relax_pass joints) g1) (Nat.iter n (relax_pass joints) g2).
Proof.
  intros Hsame. induction n as [|n IH]; simpl; [done|].
  unfold relax_pass at 1 3.
  generalize dependent (Nat.iter n (relax_pass joints) g2).
  generalize (Nat.iter n (relax_pass joints) g1).
  induction joints as [|j joints IHj]; intros a b Hab; simpl; [done|].
  apply IHj. by apply relax_joint_same_state.
Qed.

(** The graph built from the frame a call returns is the state the call
    ended with. *)
Lemma rebuilt_graph_same_state (frame : Frame F) (joints : list (Joint F)) (n : nat) :
  same_state
    (fold_left
       (add_connection
          (with_markers frame
             (write_back
                (Nat.iter n (relax_pass joints)
                   (fold_left (add_connection frame) joints (init_graph frame)))
                (markers frame))))
       joints
       (init_graph
          (with_markers frame
             (write_back
                (Nat.iter n (relax_pass joints)
                   (fold_left (add_connection frame) joints (init_graph frame)))
                (markers frame)))))
    (Nat.iter n (relax_pass joints)
       (fold_left (add_connection frame) joints (init_graph frame))).
Proof.
  intros id. rewrite built_graph_state.
  change (markers (with_markers frame ?ms)) with ms.
  rewrite write_back_lookup.
  set (g0 := fold_left (add_connection frame) joints (init_graph frame)).
  set (gn := Nat.iter n (relax_pass joints) g0).
  assert (Hw : weight <$> (gn !! id)
               = markers frame !! id ≫= (λ m, if isVisible m then Some (confidence m) else None)).
  { unfold gn. rewrite relax_passes_weight.
    pose proof (built_graph_state frame joints id) as Hst. fold g0 in Hst.
    destruct (g0 !! id) as [node|], (markers frame !! id) as [m|]; simpl in *; try done.
    - destruct (isVisible m); [|done]. by injection Hst as _ ->.
    - by destruct (isVisible m). }
  destruct (gn !! id) as [node|]; simpl in *.
  - destruct (markers frame !! id) as [m|]; simpl in *; [|done].
    destruct (isVisible m) eqn:Hv; [|done]. simpl. rewrite ?Hv.
    injection Hw as Hw. unfold node_state. destruct (newPosition node). simpl.
    by rewrite Hw.
  - destruct (markers frame !! id) as [m|]; simpl in *; [|done].
    by destruct (isVisible m).
Qed.

(** Iterations compose: calling the solver with [n] iterations and then, on
    the frame it returns, with [m] iterations gives the frame of one call
    with [n + m] iterations. *)
Theorem applyLengthConstraints_iterations_compose (frame : Frame F) (joints : list (Joint F))
    (n m : Z) :
  (0 ≤ n)%Z → (0 ≤ m)%Z →
  applyLengthConstraints (applyLengthConstraints frame joints n) joints m
  = applyLengthConstraints frame joints (n + m).
Proof.
  intros Hn Hm. unfold applyLengthConstraints at 1 3. cbv zeta.
  rewrite Z2Nat.inj_add by done.
  rewrite (Nat.add_comm (Z.to_nat n)), Nat.iter_add.
  unfold applyLengthConstraints. cbv zeta.
  set (g0 := fold_left (add_connection frame) joints (init_graph frame)).
  set (gn := Nat.iter (Z.to_nat n) (relax_pass joints) g0).
  pose proof (relax_passes_same_state (Z.to_nat m) joints _ _
                (rebuilt_graph_same_state frame joints (Z.to_nat n))) as Hsame.
  fold g0 gn in Hsame.
  set (g' := Nat.iter (Z.to_nat m) (relax_pass joints) _) in *.
  set (g'' := Nat.iter (Z.to_nat m) (relax_pass joints) gn) in *.
  unfold with_markers. simpl. f_equal. apply map_eq. intros id.
  rewrite !write_back_lookup.
  pose proof (Hsame id) as Hid.
  assert (Hdom : weight <$> (g'' !! id) = weight <$> (gn !! id))
    by apply relax_passes_weight.
  destruct (g' !! id) as [n'|], (g'' !! id) as [n''|]; simpl in Hid; try done.
  - injection Hid as Hp _. rewrite Hp.
    destruct (gn !! id) as [nn|]; [|done].
    destruct (markers frame !! id) as [mk|]; [|done]. done.
  - destruct (gn !! id); [done|]. done.
Qed.

End SolverComposition.

(** ** The share of each endpoint, and the symmetry of the fusion *)

Section SharesReal.
Local Open Scope R_scope.

Lemma positive_distance_distinct (frame : Frame R) (a b : string) (ma mb : MarkerSample R) :
  markers frame !! a = Some ma →
  markers frame !! b = Some mb →
  0 < calculateDistance (position ma) (position mb) →
  a ≠ b.
Proof.
  intros Ha Hb Hd ->. assert (ma = mb) by congruence. subst mb.
  unfold calculateDistance, position in Hd. real_ops.
  rewrite !Rminus_diag, Rmult_0_l, Rplus_0_l, sqrt_0 in Hd. lra.
Qed.

Lemma scaled_norm (c u v : R) :
  0 <= c → c * sqrt (u * u + v * v) = sqrt ((c * u) * (c * u) + (c * v) * (c * v)).
Proof.
  intros Hc.
  replace ((c * u) * (c * u) + (c * v) * (c * v)) with ((c * c) * (u * u + v * v)) by ring.
  pose proof (Rle_0_sqr u). pose proof (Rle_0_sqr v). unfold Rsqr in *.
  rewrite sqrt_mult; [|by apply Rmult_le_pos|lra]. by rewrite sqrt_square.
Qed.

(** One pass on a single joint between two visible markers with positive
    confidences keeps the confidence-weighted centroid of the two endpoints,
    and the displacements are inversely proportional to the confidences: the
    endpoint with the lower confidence moves further. *)
Theorem single_joint_pass_shares (frame : Frame R) (a b name : string) (len : R)
    (ma mb : MarkerSample R) :
  markers frame !! a = Some ma →
  markers frame !! b = Some mb →
  isVisible ma = true →
  isVisible mb = true →
  0 < confidence ma →
  0 < confidence mb →
  0 < len →
  0 < calculateDistance (position ma) (position mb) →
  ∃ ma' mb',
    markers (applyLengthConstraints frame [mkJoint a b len name] 1) !! a = Some ma'
    ∧ markers (applyLengthConstraints frame [mkJoint a b len name] 1) !! b = Some mb'
    ∧ confidence ma * marker_x ma' + confidence mb * marker_x mb'
      = confidence ma * marker_x ma + confidence mb * marker_x mb
    ∧ confidence ma * marker_y ma' + confidence mb * marker_y mb'
      = confidence ma * marker_y ma + confidence mb * marker_y mb
    ∧ confidence ma * calculateDistance (position ma) (position ma')
      = confidence mb * calculateDistance (position mb) (position mb')
    ∧ (confidence ma <= confidence mb →
       calculateDistance (position mb) (position mb')
       <= calculateDistance (position ma) (position ma')).
Proof.
  intros Ha Hb Hva Hvb Hca Hcb HL Hd.
  pose proof (positive_distance_distinct frame a b ma mb Ha Hb Hd) as Hne.
  destruct (solve_single_joint frame a b name len ma mb) as [Hoa Hob]; try done.
  { by apply Rltb_true. }
  { by apply Rltb_true. }
  eexists _, _. split; [exact Hoa|]. split; [exact Hob|].
  set (d := calculateDistance (position ma) (position mb)) in *.
  assert (Hx : confidence ma
               * marker_x (with_position ma
                   (fst (corrected_positions (position ma) (position mb)
                           (confidence ma) (confidence mb) len)))
               + confidence mb
                 * marker_x (with_position mb
                     (snd (corrected_positions (position ma) (position mb)
                             (confidence ma) (confidence mb) len)))
               = confidence ma * marker_x ma + confidence mb * marker_x mb).
  { unfold corrected_positions, with_position, position. fold (position ma) (position mb).
    fold d. real_ops. unfold position. cbn [marker_x marker_y px py]. field. lra. }
  assert (Hy : confidence ma
               * marker_y (with_position ma
                   (fst (corrected_positions (position ma) (position mb)
                           (confidence ma) (confidence mb) len)))
               + confidence mb
                 * marker_y (with_position mb
                     (snd (corrected_positions (position ma) (position mb)
                             (confidence ma) (confidence mb) len)))
               = confidence ma * marker_y ma + confidence mb * marker_y mb).
  { unfold corrected_positions, with_position, position. fold (position ma) (position mb).
    fold d. real_ops. unfold position. cbn [marker_x marker_y px py]. field. lra. }
  split; [exact Hx|]. split; [exact Hy|].
  set (ma' := with_position ma _) in *. set (mb' := with_position mb _) in *.
  assert (Hdisp : confidence ma * calculateDistance (position ma) (position ma')
                  = confidence mb * calculateDistance (position mb) (position mb')).
  { unfold calculateDistance, position. real_ops.
    rewrite !scaled_norm by lra. f_equal.
    replace (confidence ma * (marker_x ma' - marker_x ma))
      with (- (confidence mb * (marker_x mb' - marker_x mb))) by lra.
    replace (confidence ma * (marker_y ma' - marker_y ma))
      with (- (confidence mb * (marker_y mb' - marker_y mb))) by lra.
    ring. }
  split; [exact Hdisp|].
  intros Hle.
  assert (0 <= calculateDistance (position mb) (position mb'))
    by (unfold calculateDistance; real_ops; apply sqrt_pos).
  assert (0 <= calculateDistance (position ma) (position ma'))
    by (unfold calculateDistance; real_ops; apply sqrt_pos).
  nra.
Qed.

(** Swapping the two sources and replacing the ratio [r] by [1 - r] gives
    the same fused position for a marker visible in both frames, when the
    weight sum is positive. *)
Theorem blend_swap_sources (primary secondary : Frame R) (blendRatio : R) (id : string)
    (m s : MarkerSample R) :
  markers primary !! id = Some m →
  markers secondary !! id = Some s →
  isVisible m = true →
  isVisible s = true →
  0 < confidence m * (1 - blendRatio) + confidence s * blendRatio →
  position <$> (markers (blendMarkerAndMarkerlessData primary secondary blendRatio) !! id)
  = position <$> (markers (blendMarkerAndMarkerlessData secondary primary (1 - blendRatio))
                    !! id).
Proof.
  intros Hm Hs Hvm Hvs Hw. rewrite !blend_lookup, Hm, Hs. simpl. f_equal.
  unfold blended_sample. rewrite Hm, Hs, Hvm, Hvs. simpl. real_ops.
  replace (Rltb 0 (confidence m * (1 - blendRatio) + confidence s * blendRatio)) with true
    by (symmetry; by apply Rltb_true).
  replace (Rltb 0 (confidence s * (1 - (1 - blendRatio))
                   + confidence m * (1 - blendRatio))) with true
    by (symmetry; apply Rltb_true; lra).
  unfold position. simpl. f_equal; field; lra.
Qed.

End SharesReal.

(** ** Statistics *)

Section StatisticsLookup.
Context {F : Type} `{Number F} `{NumberMin F}.

Lemma calculateJointLengthStats_lookup (data : gmap string (list F)) (name : string) :
  calculateJointLengthStats data !! name = data !! name ≫= series_stats.
Proof.
  unfold calculateJointLengthStats.
  rewrite (map_fold_pointwise _
             (λ _ values o, match series_stats values with Some s => Some s | None => o end)).
  - destruct (data !! name) as [values|]; simpl; [|apply lookup_empty].
    destruct (series_stats values); [done|apply lookup_empty].
  - intros k v acc j. destruct (series_stats v).
    + rewrite lookup_insert. destruct (decide (k = j)), (decide (j = k)); congruence.
    + destruct (decide (j = k)); congruence.
Qed.

End StatisticsLookup.

Section StatisticsReal.
Local Open Scope R_scope.

Lemma series_sum_bounds (values : list R) (acc lo hi : R) :
  Forall (λ v, lo <= v <= hi) values →
  acc + IZR (Z.of_nat (List.length values)) * lo <= fold_left num_add values acc
  ∧ fold_left num_add values acc <= acc + IZR (Z.of_nat (List.length values)) * hi.
Proof.
  intros Hall. revert acc.
  induction Hall as [|v values [Hlo Hhi] Hall IH]; intros acc.
  - cbn [fold_left List.length]. change (Z.of_nat 0) with 0%Z. lra.
  - change (fold_left num_add (v :: values) acc) with (fold_left num_add values (acc + v)).
    destruct (IH (acc + v)) as [IHlo IHhi].
    rewrite length_cons, Nat2Z.inj_succ, succ_IZR. split; lra.
Qed.

Lemma fold_min_spec (others : list R) (first : R) :
  Forall (λ v, fold_left Rmin others first <= v) (first :: others)
  ∧ fold_left Rmin others first ∈ first :: others.
Proof.
  revert first. induction others as [|v others IH]; intros first; simpl.
  - split; [constructor; [lra|constructor]|by left].
  - destruct (IH (Rmin first v)) as [Hall Hin].
    apply Forall_cons in Hall as [Hhead Hall].
    split.
    + constructor; [pose proof (Rmin_l first v); lra|].
      constructor; [pose proof (Rmin_r first v); lra|done].
    + apply elem_of_cons in Hin as [Heq|Hin]; [|by right; right].
      rewrite Heq. unfold Rmin. destruct (Rle_dec first v); [by left|right; by left].
Qed.

Lemma fold_max_spec (others : list R) (first : R) :
  Forall (λ v, v <= fold_left Rmax others first) (first :: others)
  ∧ fold_left Rmax others first ∈ first :: others.
Proof.
  revert first. induction others as [|v others IH]; intros first; simpl.
  - split; [constructor; [lra|constructor]|by left].
  - destruct (IH (Rmax first v)) as [Hall Hin].
    apply Forall_cons in Hall as [Hhead Hall].
    split.
    + constructor; [pose proof (Rmax_l first v); lra|].
      constructor; [pose proof (Rmax_r first v); lra|done].
    + apply elem_of_cons in Hin as [Heq|Hin]; [|by right; right].
      rewrite Heq. unfold Rmax. destruct (Rle_dec first v); [right; by left|by left].
Qed.

(** The statistics have an entry exactly for the non-empty series.  Over the
    reals, the minimum and the maximum of an entry are values of the series
    and bound all of them, the mean lies between them, and the standard
    deviation is non-negative; for a constant series the mean is that
    constant and the deviation is 0. *)
Theorem calculateJointLengthStats_bounds (data : gmap string (list R)) (name : string) :
  (is_Some (calculateJointLengthStats data !! name)
   ↔ ∃ values, data !! name = Some values ∧ values ≠ [])
  ∧ calculateVelocityStats data = calculateJointLengthStats data
  ∧ (∀ values s,
        data !! name = Some values →
        calculateJointLengthStats data !! name = Some s →
        stat_min s ∈ values ∧ stat_max s ∈ values
        ∧ Forall (λ v, stat_min s <= v <= stat_max s) values
        ∧ stat_min s <= stat_mean s <= stat_max s
        ∧ 0 <= stat_std s
        ∧ (∀ c, Forall (λ v, v = c) values → stat_mean s = c ∧ stat_std s = 0)).
Proof.
  split; [|split; [done|]].
  - rewrite calculateJointLengthStats_lookup.
    destruct (data !! name) as [values|]; simpl.
    + destruct values as [|v values]; simpl.
      * split; [by intros [? ?]|]. by intros (? & [= <-] & ?).
      * split; [|by eauto]. intros _. by eexists.
    + split; [by intros [? ?]|]. by intros (? & ? & ?).
  - intros values s Hdata. rewrite calculateJointLengthStats_lookup, Hdata.
    change (series_stats values = Some s → stat_min s ∈ values ∧ stat_max s ∈ values
        ∧ Forall (λ v, stat_min s <= v <= stat_max s) values
        ∧ stat_min s <= stat_mean s <= stat_max s
        ∧ 0 <= stat_std s
        ∧ (∀ c, Forall (λ v, v = c) values → stat_mean s = c ∧ stat_std s = 0)).
    destruct values as [|first others]; [done|].
    unfold series_stats. cbv zeta.
    set (values := first :: others).
    set (count := num_of_Z (Z.of_nat (List.length values))).
    set (mean := (series_sum values / count)%num).
    intros [= <-].
    cbn [stat_min stat_max stat_mean stat_std num_min num_max R_NumberMin R_Number].
    destruct (fold_min_spec others first) as [Hmin Hmin_in].
    destruct (fold_max_spec others first) as [Hmax Hmax_in].
    set (lo := fold_left Rmin others first) in *.
    set (hi := fold_left Rmax others first) in *.
    fold values in Hmin, Hmax, Hmin_in, Hmax_in.
    assert (Hbounds : Forall (λ v, lo <= v <= hi) values).
    { apply Forall_forall. intros v Hv.
      rewrite Forall_forall in Hmin, Hmax. split; [by apply Hmin|by apply Hmax]. }
    assert (Hn : 0 < IZR (Z.of_nat (List.length values))).
    { apply IZR_lt. unfold values. simpl. lia. }
    assert (Hmean : ∀ a b, Forall (λ v, a <= v <= b) values → a <= mean <= b).
    { intros a b Hab. destruct (series_sum_bounds values 0 a b Hab) as [Hlo Hhi].
      unfold mean, count, series_sum. real_ops.
      change (fold_left num_add values 0) with (fold_left Rplus values 0) in Hlo, Hhi.
      set (n := IZR (Z.of_nat (List.length values))) in *.
      assert (Hq : ∀ t, t * / n * n = t) by (intros t; field; lra).
      unfold Rdiv.
      split; apply Rmult_le_reg_r with n; try done; rewrite Hq; lra. }
    split; [done|]. split; [done|]. split; [done|].
    split; [by apply Hmean|]. split; [apply sqrt_pos|].
    intros c Hconst.
    assert (Hc : mean = c).
    { destruct (Hmean c c) as [? ?]; [|lra].
      eapply Forall_impl; [exact Hconst|]. intros v ->. lra. }
    split; [exact Hc|]. rewrite Hc.
    assert (Hzero : series_sum (List.map (λ value, (value - c) * (value - c)) values) = 0).
    { destruct (series_sum_bounds
                  (List.map (λ value, (value - c) * (value - c)) values) 0 0 0) as [? ?].
      - apply Forall_forall. intros v Hv.
        apply list_elem_of_In, in_map_iff in Hv as (x & <- & Hx).
        rewrite Forall_forall in Hconst.
        rewrite (Hconst x) by (by apply list_elem_of_In). lra.
      - unfold series_sum. real_ops. lra. }
    change (sqrt (series_sum (List.map (λ value, (value - c) * (value - c)) values) / count) = 0).
    rewrite Hzero. unfold count. real_ops. unfold Rdiv. rewrite Rmult_0_l. apply sqrt_0.
Qed.

End StatisticsReal.

(** ** Instances *)

Section Instances.
Local Open Scope string_scope.

Lemma applyLengthConstraints_unconstrained_marker_witness :
  markers (applyLengthConstraints (F:=float) frame_ABC [joint_AB 10] 5) !! "C"
  = markers (frame_ABC (F:=float)) !! "C".
Proof.
  apply (applyLengthConstraints_unconstrained_marker (F:=float) frame_ABC [joint_AB 10] 5 "C").
  constructor; [|constructor]. right. split; discriminate.
Defined.

Lemma applyLengthConstraints_without_lengths_witness :
  applyLengthConstraints (F:=float) frame_ABC [joint_AB 0; joint_AC 0] 5 = frame_ABC.
Proof.
  apply (applyLengthConstraints_without_lengths (F:=float) frame_ABC [joint_AB 0; joint_AC 0] 5).
  repeat constructor.
Defined.

Lemma frame_ABC_confident :
  map_Forall (λ _ m, isVisible m = true → (0 < confidence m)%R) (markers (frame_ABC (F:=R))).
Proof.
  unfold frame_ABC, frame_of. simpl.
  repeat (apply map_Forall_insert_2; [intros _; simpl; lra|]).
  apply map_Forall_empty.
Defined.

Lemma applyLengthConstraints_measured_rest_pose_witness :
  applyLengthConstraints (F:=R) frame_ABC
    (initializeJointLengths [joint_AB 10; joint_AC 7] frame_ABC) 5
  = frame_ABC.
Proof.
  apply (applyLengthConstraints_measured_rest_pose frame_ABC [joint_AB 10; joint_AC 7] 5).
  exact frame_ABC_confident.
Defined.

Lemma blend_ratio_one_takes_secondary_witness :
  markers (blendMarkerAndMarkerlessData (F:=R) frame_AB frame_A_elsewhere 1%R) !! "A"
  = Some (mkSample 7 7 (Rmax 1 1) true)%R.
Proof.
  assert (Hc : (0 < confidence (sample_at (F:=R) 7 7 1 true))%R) by (simpl; lra).
  exact (blend_ratio_one_takes_secondary frame_AB frame_A_elsewhere "A"
           (sample_at 0 0 1 true) (sample_at 7 7 1 true)
           eq_refl eq_refl eq_refl eq_refl Hc).
Defined.

Lemma blend_between_sources_witness :
  ∃ m',
    markers (blendMarkerAndMarkerlessData (F:=R) frame_AB frame_A_elsewhere (1 / 2)%R) !! "A"
      = Some m'
    ∧ (Rmin 0 7 <= marker_x m' <= Rmax 0 7)%R.
Proof.
  destruct (blend_between_sources frame_AB frame_A_elsewhere (1 / 2)%R "A"
              (sample_at 0 0 1 true) (sample_at 7 7 1 true))
    as (m' & Hm' & Hx & _).
  - reflexivity.
  - reflexivity.
  - lra.
  - simpl. lra.
  - simpl. lra.
  - exists m'. split; [exact Hm'|exact Hx].
Defined.


Lemma convertTFJSPoseToMarkers_origin_witness :
  convertTFJSPoseToMarkers (Some pose_example) pose_mapping !! "LHEAD"
    = Some (mkSample 3 4 0 false)%float
  ∧ "LHEAD" ≠ ""
  ∧ isVisible (mkSample 3 4 0 false)%float
    = num_gtb (confidence (mkSample 3 4 0 false)%float) visibility_threshold.
Proof.
  assert (Hm : convertTFJSPoseToMarkers (Some pose_example) pose_mapping !! "LHEAD"
               = Some (mkSample 3 4 0 false)%float) by (vm_compute; reflexivity).
  destruct (convertTFJSPoseToMarkers_origin (Some pose_example) pose_mapping "LHEAD"
              (mkSample 3 4 0 false)%float Hm) as (Hne & Hv & _).
  split; [exact Hm|]. split; [exact Hne|exact Hv].
Defined.

Lemma convertOpenPoseToMarkers_origin_witness :
  convertOpenPoseToMarkers (Some openpose_example) openpose_mapping !! "B"
    = Some (mkOpenPoseSample 30%float None None false)
  ∧ "B" ≠ ""
  ∧ openpose_isVisible (mkOpenPoseSample 30%float None None false)
    = above_threshold (openpose_confidence (mkOpenPoseSample 30%float None None false)).
Proof.
  assert (Hs : convertOpenPoseToMarkers (Some openpose_example) openpose_mapping !! "B"
               = Some (mkOpenPoseSample 30%float None None false)) by (vm_compute; reflexivity).
  destruct (convertOpenPoseToMarkers_origin (Some openpose_example) openpose_mapping "B"
              (mkOpenPoseSample 30%float None None false) Hs) as (Hne & Hv & _).
  split; [exact Hs|]. split; [exact Hne|exact Hv].
Defined.

Lemma applyLengthConstraints_iterations_compose_witness :
  applyLengthConstraints (F:=float)
    (applyLengthConstraints frame_ABC [joint_AB 10; joint_AC 7] 2) [joint_AB 10; joint_AC 7] 3
  = applyLengthConstraints frame_ABC [joint_AB 10; joint_AC 7] (2 + 3).
Proof.
  apply (applyLengthConstraints_iterations_compose (F:=float) frame_ABC
           [joint_AB 10; joint_AC 7] 2 3); lia.
Defined.

Lemma single_joint_pass_shares_witness :
  ∃ ma' mb',
    markers (applyLengthConstraints (F:=R) frame_AB [mkJoint "A" "B" 10%R "A-B"] 1) !! "A"
      = Some ma'
    ∧ markers (applyLengthConstraints (F:=R) frame_AB [mkJoint "A" "B" 10%R "A-B"] 1) !! "B"
      = Some mb'
    ∧ (1 * marker_x ma' + 1 * marker_x mb' = 1 * 0 + 1 * 3)%R.
Proof.
  destruct (single_joint_pass_shares frame_AB "A" "B" "A-B" 10%R
              (sample_at 0 0 1 true) (sample_at 3 4 1 true))
    as (ma' & mb' & Ha & Hb & Hx & _).
  - reflexivity.
  - reflexivity.
  - reflexivity.
  - reflexivity.
  - simpl. lra.
  - simpl. lra.
  - lra.
  - rewrite frame_AB_distance_R. lra.
  - exists ma', mb'. split; [exact Ha|]. split; [exact Hb|exact Hx].
Defined.

Lemma blend_swap_sources_witness :
  position <$> (markers (blendMarkerAndMarkerlessData (F:=R) frame_AB frame_A_elsewhere
                           (1 / 4)%R) !! "A")
  = position <$> (markers (blendMarkerAndMarkerlessData (F:=R) frame_A_elsewhere frame_AB
                             (1 - 1 / 4)%R) !! "A").
Proof.
  assert (Hw : (0 < confidence (sample_at (F:=R) 0 0 1 true) * (1 - 1 / 4)
                    + confidence (sample_at (F:=R) 7 7 1 true) * (1 / 4))%R)
    by (simpl; lra).
  exact (blend_swap_sources frame_AB frame_A_elsewhere (1 / 4)%R "A"
           (sample_at 0 0 1 true) (sample_at 7 7 1 true)
           eq_refl eq_refl eq_refl eq_refl Hw).
Defined.

End Instances.

Section EstimatorInstance.
Local Open Scope string_scope.

Lemma estimatePosition_frame_B_absent_R :
  estimatePosition (F:=R) frame_B_absent [joint_AC 5; joint_AB 10] (joint_AB 10) "A"
    (sample_at 0 0 1 true)
  = Some (mkPoint (0 + (5 - 0) / sqrt ((5 - 0) * (5 - 0) + (0 - 0) * (0 - 0)) * 10)
                  (0 + (0 - 0) / sqrt ((5 - 0) * (5 - 0) + (0 - 0) * (0 - 0)) * 10))%R.
Proof.
  assert (H5 : Rltb 0 5 = true) by (apply Rltb_true; lra).
  assert (H10 : Rltb 0 10 = true) by (apply Rltb_true; lra).
  assert (Hmag : Rltb 0 (sqrt ((5 - 0) * (5 - 0) + (0 - 0) * (0 - 0))) = true).
  { apply Rltb_true. apply sqrt_lt_R0. lra. }
  unfold estimatePosition, connectedJoints, joint_AC, joint_AB. simpl.
  unfold num_gtb. simpl. rewrite H5. simpl.
  rewrite lookup_insert_ne by done. rewrite lookup_insert_eq. simpl.
  rewrite Hmag. reflexivity.
Defined.

Lemma estimatePosition_at_joint_length_witness :
  calculateDistance (F:=R) (position (sample_at 0 0 1 true))
    (mkPoint (0 + (5 - 0) / sqrt ((5 - 0) * (5 - 0) + (0 - 0) * (0 - 0)) * 10)
             (0 + (0 - 0) / sqrt ((5 - 0) * (5 - 0) + (0 - 0) * (0 - 0)) * 10))%R
  = Rabs 10.
Proof.
  exact (estimatePosition_at_joint_length frame_B_absent [joint_AC 5; joint_AB 10]
           (joint_AB 10) "A" (sample_at 0 0 1 true) _ estimatePosition_frame_B_absent_R).
Defined.

End EstimatorInstance.
